(** * go-fs: the exclusive advisory file lock (packages filelock,
      filelock/windows, filelock/unix and fs)

    A shallow embedding of the lock handle of [rsgcata/go-fs] and of the
    little of the operating system it drives, followed by the properties of
    the handle's state machine, of its retry loop and of its error results.

    Conventions.
    - A Go [error] is an [option error]: [None] is [nil].
    - [time.Duration] and clock readings are integers ([Z]) counting
      nanoseconds.
    - Every method of the handle holds [fl.mutex] from its first statement to
      its return ([defer fl.mutex.Unlock()]), so calls on one handle run one
      at a time; a method is modelled as a function from the state before
      the call to the result and the state after it.
    - The [for] loop of [tryLock] has no bound in the source.  It is modelled
      with a fuel argument; [None] means the fuel ran out before the loop
      returned.  Fuel is only spent on iterations of that loop. *)

From Stdlib Require Import ZArith Lia.
From stdpp Require Import base option functions gmap strings.

Local Open Scope Z_scope.

(** ** Package filelock: the error values *)

Module filelock.

(** The four sentinel errors of the package ([errors.New]), and the errors
    that come from the operating system, which the handle returns as it
    receives them.  [code] is the system's error number. *)
Inductive error : Type :=
| ErrTimeout
| ErrLockHeld
| ErrAlreadyLocked
| ErrNotLocked
| OsError (code : Z).

#[export] Instance error_eq_dec : EqDecision error.
Proof. solve_decision. Defined.

End filelock.
Export filelock.

(** ** Package time *)

Abbreviation Duration := Z (only parsing).

Definition Millisecond : Duration := 1000000.

(** [time.Duration(float64(d) * 1.5)]: the product is formed in float64 and
    converted back by truncation toward zero.  For [|d| < 2^52] both [d] and
    [1.5 * d] are represented exactly in float64, so the result is the
    truncated quotient of [3 * d] by [2]. *)
Definition mul_1_5 (d : Duration) : Duration := Z.quot (d * 3) 2.

(** ** The operating system, as far as the handle can see it *)

(** A file descriptor (an [os.File], of which only [Fd()] is used). *)
Abbreviation fd := nat (only parsing).

Record OS : Type := mkOS {
  open_files : gset fd;       (* descriptors of this handle that are open *)
  lock_owner : option fd;     (* the descriptor that holds the exclusive lock
                                 for this process, if there is one *)
  next_fd : fd;               (* the descriptor the next open returns *)
  clock : Z;                  (* the monotonic clock, in nanoseconds *)
  sleeps : list Z             (* the arguments of time.Sleep so far, the
                                 latest first *)
}.

(** What the system answers during one call of a method: everything the
    handle cannot control.  [lock_outcome n] is the result of the [n]-th
    attempt on the lock primitive within the call (the attempt before the
    loop is number 0), [sleep_extra n] is the time that iteration [n] of the
    retry loop takes beyond the interval it asked to sleep ([time.Sleep]
    pauses for at least the duration given; the system call that follows is
    counted here too). *)
Record Env : Type := mkEnv {
  open_outcome : option Z;
  lock_outcome : nat -> option Z;
  sleep_extra : nat -> N;
  unlock_outcome : option Z;
  close_outcome : option Z
}.

(** The system once the next descriptor has been handed out. *)
Definition opened (os : OS) : OS :=
  mkOS ({[ next_fd os ]} ∪ open_files os) (lock_owner os)
       (S (next_fd os)) (clock os) (sleeps os).

(** [os.OpenFile(path, os.O_CREATE|os.O_RDWR, 0666)]: a fresh descriptor, or
    no descriptor and an error. *)
Definition OpenFile (env : Env) (name : string) (os : OS) : (fd + error) * OS :=
  match open_outcome env with
  | Some e => (inr (OsError e), os)
  | None => (inl (next_fd os), opened os)
  end.

(** Giving up a descriptor's claim on the lock. *)
Definition drop_owner (f : fd) (owner : option fd) : option fd :=
  if decide (owner = Some f) then None else owner.

(** The system once descriptor [f] has been closed: a lock held through it
    goes with it. *)
Definition closed (f : fd) (os : OS) : OS :=
  mkOS (open_files os ∖ {[ f ]}) (drop_owner f (lock_owner os))
       (next_fd os) (clock os) (sleeps os).

(** [Close] of [os.File]: the descriptor is closed, whatever is returned. *)
Definition Close (env : Env) (f : fd) (os : OS) : option error * OS :=
  (OsError <$> close_outcome env, closed f os).

(** The system once the exclusive lock has been granted to descriptor [f]. *)
Definition granted (f : fd) (os : OS) : OS :=
  mkOS (open_files os) (Some f) (next_fd os) (clock os) (sleeps os).

(** Request number [n] of the call for the exclusive lock on the descriptor,
    non-blocking: granted, or refused with an error and no effect. *)
Definition acquire (env : Env) (n : nat) (f : fd) (os : OS) : option error * OS :=
  match lock_outcome env n with
  | None => (None, granted f os)
  | Some e => (Some (OsError e), os)
  end.

(** The system once descriptor [f] has let the lock go. *)
Definition released (f : fd) (os : OS) : OS :=
  mkOS (open_files os) (drop_owner f (lock_owner os))
       (next_fd os) (clock os) (sleeps os).

(** The release of the lock: done, or refused with an error and no effect. *)
Definition release (env : Env) (f : fd) (os : OS) : option error * OS :=
  match unlock_outcome env with
  | None => (None, released f os)
  | Some e => (Some (OsError e), os)
  end.

(** [time.Now()] and [time.Since(t)], on the monotonic clock. *)
Definition Now (os : OS) : Z := clock os.
Definition Since (t : Z) (os : OS) : Duration := clock os - t.

(** [time.Sleep(d)] in iteration [n] of the retry loop: returns at once for
    [d <= 0], and otherwise after [d] or later. *)
Definition Sleep (env : Env) (n : nat) (d : Duration) (os : OS) : OS :=
  mkOS (open_files os) (lock_owner os) (next_fd os)
       (clock os + Z.max d 0 + Z.of_N (sleep_extra env n))
       (d :: sleeps os).

(** ** The handle *)

(** [type FileLock struct { path; file; locked; mutex }], the same in both
    packages; [file = None] is the nil pointer. *)
Record FileLock : Type := mkFileLock {
  path : string;
  file : option fd;
  locked : bool
}.

Definition set_file (f : option fd) (fl : FileLock) : FileLock :=
  mkFileLock (path fl) f (locked fl).

Definition set_locked (b : bool) (fl : FileLock) : FileLock :=
  mkFileLock (path fl) (file fl) b.

(** A handle together with the system it lives in. *)
Abbreviation State := (FileLock * OS)%type (only parsing).

(** The step of the backoff: [if retryInterval < time.Millisecond*100
    { retryInterval = time.Duration(float64(retryInterval) * 1.5) }]. *)
Definition next_interval (retryInterval : Duration) : Duration :=
  if retryInterval <? Millisecond * 100 then mul_1_5 retryInterval
  else retryInterval.

(** ** Package filelock/windows *)

Module windows.

(** [windows.ERROR_LOCK_VIOLATION], the error number 33. *)
Definition ERROR_LOCK_VIOLATION : error := OsError 33.

(** [windows.LockFileEx(handle, LOCKFILE_EXCLUSIVE_LOCK |
    LOCKFILE_FAIL_IMMEDIATELY, 0, 1, 0, overlapped)]. *)
Definition LockFileEx : Env -> nat -> fd -> OS -> option error * OS := acquire.

(** [windows.UnlockFileEx(handle, 0, 1, 0, overlapped)]. *)
Definition UnlockFileEx : Env -> fd -> OS -> option error * OS := release.

Definition New (path : string) : FileLock := mkFileLock path None false.

(** The [for] loop of [tryLock].  [n] counts the iterations done so far. *)
Fixpoint retry (fuel : nat) (env : Env) (handle : fd)
    (timeout startTime retryInterval : Duration) (n : nat) (os : OS)
    : option (option error * OS) :=
  match fuel with
  | O => None
  | S fuel =>
      if Since startTime os >=? timeout then Some (Some ErrTimeout, os)
      else
        let os := Sleep env n retryInterval os in
        let retryInterval := next_interval retryInterval in
        let '(err, os) := LockFileEx env (S n) handle os in
        if bool_decide (err = None)
           || negb (bool_decide (err = Some ERROR_LOCK_VIOLATION))
        then Some (err, os)
        else retry fuel env handle timeout startTime retryInterval (S n) os
  end.

(** [tryLock]; [handle] is [fl.file.Fd()], the descriptor that
    [LockWithTimeout] has just opened. *)
Definition tryLock (fuel : nat) (env : Env) (handle : fd)
    (timeout : Duration) (os : OS) : option (option error * OS) :=
  let '(err, os) := LockFileEx env 0 handle os in
  if bool_decide (err = None)
     || negb (bool_decide (err = Some ERROR_LOCK_VIOLATION))
  then Some (err, os)
  else if timeout <=? 0 then Some (Some ErrLockHeld, os)
  else
    let startTime := Now os in
    let retryInterval := Millisecond * 10 in
    retry fuel env handle timeout startTime retryInterval 0 os.

Definition LockWithTimeout (fuel : nat) (env : Env) (timeout : Duration)
    (st : FileLock * OS) : option (option error * (FileLock * OS)) :=
  let '(fl, os) := st in
  if locked fl then Some (Some ErrAlreadyLocked, (fl, os))
  else
    match OpenFile env (path fl) os with
    | (inr err, os) => Some (Some err, (set_file None fl, os))
    | (inl f, os) =>
        let fl := set_file (Some f) fl in
        match tryLock fuel env f timeout os with
        | None => None
        | Some (Some err, os) =>
            let '(_, os) := Close env f os in
            Some (Some err, (set_file None fl, os))
        | Some (None, os) => Some (None, (set_locked true fl, os))
        end
    end.

Definition Lock (fuel : nat) (env : Env) (st : FileLock * OS)
    : option (option error * (FileLock * OS)) :=
  LockWithTimeout fuel env 0 st.

Definition Unlock (env : Env) (st : FileLock * OS)
    : option error * (FileLock * OS) :=
  let '(fl, os) := st in
  match locked fl, file fl with
  | true, Some f =>
      let '(err, os) := UnlockFileEx env f os in
      match err with
      | Some e => (Some e, (fl, os))
      | None =>
          let '(err, os) := Close env f os in
          (err, (set_locked false (set_file None fl), os))
      end
  | _, _ => (Some ErrNotLocked, (fl, os))   (* !fl.locked || fl.file == nil *)
  end.

Definition IsLocked (st : FileLock * OS) : bool := locked (fst st).

Definition Path (st : FileLock * OS) : string := path (fst st).

End windows.

(** ** Package filelock/unix *)

Module unix.

(** [syscall.EWOULDBLOCK], the error number 11 on Linux. *)
Definition EWOULDBLOCK : error := OsError 11.

(** [syscall.Flock(fd, syscall.LOCK_EX|syscall.LOCK_NB)]. *)
Definition Flock_EX_NB : Env -> nat -> fd -> OS -> option error * OS := acquire.

(** [syscall.Flock(fd, syscall.LOCK_UN)]. *)
Definition Flock_UN : Env -> fd -> OS -> option error * OS := release.

Definition New (path : string) : FileLock := mkFileLock path None false.

(** The [for] loop of [tryLock].  [n] counts the iterations done so far. *)
Fixpoint retry (fuel : nat) (env : Env) (handle : fd)
    (timeout startTime retryInterval : Duration) (n : nat) (os : OS)
    : option (option error * OS) :=
  match fuel with
  | O => None
  | S fuel =>
      if Since startTime os >=? timeout then Some (Some ErrTimeout, os)
      else
        let os := Sleep env n retryInterval os in
        let retryInterval := next_interval retryInterval in
        let '(err, os) := Flock_EX_NB env (S n) handle os in
        if bool_decide (err = None) then Some (None, os)
        else if negb (bool_decide (err = Some EWOULDBLOCK)) then Some (err, os)
        else retry fuel env handle timeout startTime retryInterval (S n) os
  end.

(** [tryLock]; [handle] is [fl.file.Fd()], the descriptor that
    [LockWithTimeout] has just opened. *)
Definition tryLock (fuel : nat) (env : Env) (handle : fd)
    (timeout : Duration) (os : OS) : option (option error * OS) :=
  let '(err, os) := Flock_EX_NB env 0 handle os in
  if bool_decide (err = None) then Some (None, os)
  else if bool_decide (err = Some EWOULDBLOCK) then
    if timeout <=? 0 then Some (Some ErrLockHeld, os)
    else
      let startTime := Now os in
      let retryInterval := Millisecond * 10 in
      retry fuel env handle timeout startTime retryInterval 0 os
  else Some (err, os).

Definition LockWithTimeout (fuel : nat) (env : Env) (timeout : Duration)
    (st : FileLock * OS) : option (option error * (FileLock * OS)) :=
  let '(fl, os) := st in
  if locked fl then Some (Some ErrAlreadyLocked, (fl, os))
  else
    match OpenFile env (path fl) os with
    | (inr err, os) => Some (Some err, (set_file None fl, os))
    | (inl f, os) =>
        let fl := set_file (Some f) fl in
        match tryLock fuel env f timeout os with
        | None => None
        | Some (Some err, os) =>
            let '(_, os) := Close env f os in
            Some (Some err, (set_file None fl, os))
        | Some (None, os) => Some (None, (set_locked true fl, os))
        end
    end.

Definition Lock (fuel : nat) (env : Env) (st : FileLock * OS)
    : option (option error * (FileLock * OS)) :=
  LockWithTimeout fuel env 0 st.

Definition Unlock (env : Env) (st : FileLock * OS)
    : option error * (FileLock * OS) :=
  let '(fl, os) := st in
  match locked fl, file fl with
  | true, Some f =>
      let '(err, os) := Flock_UN env f os in
      match err with
      | Some e => (Some e, (fl, os))
      | None =>
          let '(err, os) := Close env f os in
          (err, (set_locked false (set_file None fl), os))
      end
  | _, _ => (Some ErrNotLocked, (fl, os))   (* !fl.locked || fl.file == nil *)
  end.

Definition IsLocked (st : FileLock * OS) : bool := locked (fst st).

Definition Path (st : FileLock * OS) : string := path (fst st).

End unix.

(** ** The interface filelock.FileLock and package fs *)

(** The dynamic type of a [filelock.FileLock] value: the two packages above
    are its only implementations. *)
Inductive implementation : Type := Windows | Unix.

Module fs.

(** [fs.New] of fs.go: [windows.New] when [runtime.GOOS == "windows"],
    [unix.New] otherwise. *)
Definition New (GOOS : string) (path : string) : implementation * FileLock :=
  if String.eqb GOOS "windows" then (Windows, windows.New path)
  else (Unix, unix.New path).

End fs.

(** The methods of the interface, dispatched on the implementation. *)
Definition New (impl : implementation) : string -> FileLock :=
  match impl with Windows => windows.New | Unix => unix.New end.

Definition LockWithTimeout (impl : implementation)
    : nat -> Env -> Duration -> FileLock * OS
      -> option (option error * (FileLock * OS)) :=
  match impl with
  | Windows => windows.LockWithTimeout
  | Unix => unix.LockWithTimeout
  end.

Definition Lock (impl : implementation)
    : nat -> Env -> FileLock * OS -> option (option error * (FileLock * OS)) :=
  match impl with Windows => windows.Lock | Unix => unix.Lock end.

Definition Unlock (impl : implementation)
    : Env -> FileLock * OS -> option error * (FileLock * OS) :=
  match impl with Windows => windows.Unlock | Unix => unix.Unlock end.

Definition IsLocked (impl : implementation) : FileLock * OS -> bool :=
  match impl with Windows => windows.IsLocked | Unix => unix.IsLocked end.

Definition Path (impl : implementation) : FileLock * OS -> string :=
  match impl with Windows => windows.Path | Unix => unix.Path end.

(** The unexported parts, for the lemmas that are shared by both packages. *)
Definition tryLock (impl : implementation)
    : nat -> Env -> fd -> Duration -> OS -> option (option error * OS) :=
  match impl with Windows => windows.tryLock | Unix => unix.tryLock end.

Definition retry (impl : implementation)
    : nat -> Env -> fd -> Duration -> Z -> Duration -> nat -> OS
      -> option (option error * OS) :=
  match impl with Windows => windows.retry | Unix => unix.retry end.

(** The error number by which the lock primitive says that another holder
    has the lock. *)
Definition held_code (impl : implementation) : Z :=
  match impl with Windows => 33 | Unix => 11 end.

(** ** Notions used in the statements *)

(** The retry interval in iteration [n] of the loop: it starts at 10ms and
    takes the step of the loop once per iteration. *)
Definition backoff (n : nat) : Duration :=
  Nat.iter n next_interval (Millisecond * 10).

(** Fuel that lets the retry loop of a call with this timeout return. *)
Definition enough_fuel (timeout : Duration) : nat :=
  Z.to_nat (Z.max timeout 0 / (Millisecond * 10)) + 2.

(** A system in which the handle has nothing open, at time [t], that hands
    out descriptor [n] next. *)
Definition boot (t : Z) (n : fd) : OS := mkOS ∅ None n t [].

(** The state invariant of the data model: a locked handle has a
    descriptor, which is open and holds the exclusive lock, and is the only
    one it has open; an unlocked handle has no descriptor, nothing open and
    no lock. *)
Definition invariant (st : FileLock * OS) : Prop :=
  let '(fl, os) := st in
  (locked fl = true ->
     exists f, file fl = Some f /\ open_files os = {[ f ]}
               /\ lock_owner os = Some f) /\
  (locked fl = false ->
     file fl = None /\ open_files os = ∅ /\ lock_owner os = None).

(** The calls a client can make on a handle, and a run of them: the states
    after each call, in order.  Each call comes with the answers of the
    system during that call. *)
Inductive call : Type :=
| CallLock
| CallLockWithTimeout (timeout : Duration)
| CallUnlock.

Definition do_call (impl : implementation) (fuel : nat) (c : call) (env : Env)
    (st : FileLock * OS) : option (option error * (FileLock * OS)) :=
  match c with
  | CallLock => Lock impl fuel env st
  | CallLockWithTimeout timeout => LockWithTimeout impl fuel env timeout st
  | CallUnlock => Some (Unlock impl env st)
  end.

Fixpoint run (impl : implementation) (fuel : nat) (calls : list (call * Env))
    (st : FileLock * OS) : option (list (FileLock * OS)) :=
  match calls with
  | [] => Some []
  | (c, env) :: calls =>
      match do_call impl fuel c env st with
      | None => None
      | Some (_, st) =>
          match run impl fuel calls st with
          | None => None
          | Some sts => Some (st :: sts)
          end
      end
  end.

(** The fuel that is enough for every call of a run. *)
Fixpoint run_fuel (calls : list (call * Env)) : nat :=
  match calls with
  | [] => 0
  | (CallLockWithTimeout timeout, _) :: calls =>
      Nat.max (enough_fuel timeout) (run_fuel calls)
  | _ :: calls => run_fuel calls
  end.

(** Answers of the system used in the examples: [quiet] refuses nothing,
    [contended impl] has another holder keep the lock for the whole call,
    [release_fails code] refuses the release of the lock.  Sleeps take exactly
    the time asked for in all three. *)
Definition quiet : Env :=
  mkEnv None (fun _ => None) (fun _ => 0%N) None None.

Definition contended (impl : implementation) : Env :=
  mkEnv None (fun _ => Some (held_code impl)) (fun _ => 0%N) None None.

Definition release_fails (code : Z) : Env :=
  mkEnv None (fun _ => None) (fun _ => 0%N) (Some code) None.

(** Follows the spec's words for Lock: non-blocking, single attempt.  The
    handle must not be locked already; the file is opened; the primitive is
    tried once; on success the handle is locked and keeps the descriptor;
    when another holder has the lock the result is LockHeld, any other error
    is returned as it is, and in both cases the descriptor is closed. *)
Definition single_attempt (impl : implementation) (env : Env)
    (st : FileLock * OS) : option error * (FileLock * OS) :=
  let '(fl, os) := st in
  if locked fl then (Some ErrAlreadyLocked, (fl, os))
  else
    match open_outcome env with
    | Some e => (Some (OsError e), (mkFileLock (path fl) None false, os))
    | None =>
        let f := next_fd os in
        match lock_outcome env 0 with
        | None =>
            (None,
             (mkFileLock (path fl) (Some f) true,
              mkOS ({[ f ]} ∪ open_files os) (Some f) (S f)
                   (clock os) (sleeps os)))
        | Some e =>
            (Some (if bool_decide (e = held_code impl) then ErrLockHeld
                   else OsError e),
             (mkFileLock (path fl) None false,
              mkOS (({[ f ]} ∪ open_files os) ∖ {[ f ]})
                   (drop_owner f (lock_owner os)) (S f)
                   (clock os) (sleeps os)))
        end
    end.

(** A call that came back at once from state [st]: it returned, the clock
    and the record of sleeps are as before, and the result is success,
    AlreadyLocked, LockHeld or an error of the system. *)
Definition returned_at_once (st : FileLock * OS)
    (res : option (option error * (FileLock * OS))) : Prop :=
  exists r st',
    res = Some (r, st') /\
    sleeps (snd st') = sleeps (snd st) /\
    clock (snd st') = clock (snd st) /\
    (r = None \/ r = Some ErrAlreadyLocked \/ r = Some ErrLockHeld \/
     exists c, r = Some (OsError c)).

(** The time that the first [k] iterations of the retry loop take: each
    sleeps its interval of the schedule and what the system adds to it. *)
Fixpoint waited (env : Env) (k : nat) : Z :=
  match k with
  | O => 0
  | S k => waited env k + backoff k + Z.of_N (sleep_extra env k)
  end.

(** The other holder keeps the lock during the attempts 0 to [k] and has
    released it by attempt [k + 1]; sleeps take exactly the time asked for. *)
Definition released_after (impl : implementation) (k : nat) : Env :=
  mkEnv None
        (fun i => if (i <=? k)%nat then Some (held_code impl) else None)
        (fun _ => 0%N) None None.


(** A run on two handles: handle 0 locks, handle 1 tries and then waits
    20ms while handle 0 holds the lock, handle 0 unlocks, handle 1 locks. *)
Definition two_handles (impl : implementation) : list (nat * call * Env) :=
  [(0%nat, CallLock, quiet);
   (1%nat, CallLock, contended impl);
   (1%nat, CallLockWithTimeout (20 * Millisecond), contended impl);
   (0%nat, CallUnlock, quiet);
   (1%nat, CallLock, quiet)].

(** States used in the examples: a handle on [job.lock] that was just
    made, in a system that will hand out descriptor 3 next, and the same
    handle once it holds the lock through that descriptor. *)
Definition fresh_state (impl : implementation) : FileLock * OS :=
  (New impl "job.lock", boot 0 3).

Definition held_state : FileLock * OS :=
  (mkFileLock "job.lock" (Some 3%nat) true,
   mkOS {[ 3%nat ]} (Some 3%nat) 4 0 []).

(** ** What a client sees of a run *)

(** A run of calls on one handle, with what each call returned, and the
    state at the end. *)
Fixpoint run_results (impl : implementation) (fuel : nat)
    (calls : list (call * Env)) (st : FileLock * OS)
    : option (list (call * option error) * (FileLock * OS)) :=
  match calls with
  | [] => Some ([], st)
  | (c, env) :: calls =>
      match do_call impl fuel c env st with
      | None => None
      | Some (r, st) =>
          match run_results impl fuel calls st with
          | None => None
          | Some (rs, st) => Some ((c, r) :: rs, st)
          end
      end
  end.

(** What a client that only keeps the results can tell: it holds the lock
    after a Lock or LockWithTimeout that returned nil, and no longer after
    an Unlock; other results leave things as they were. *)
Definition holds_after (held : bool) (ev : call * option error) : bool :=
  match ev with
  | (CallUnlock, _) => false
  | (_, None) => true
  | (_, Some _) => held
  end.

(** ** Several handles in one process *)

(** Handles are separate objects: they share nothing but the system.  A
    family of handles on the one file that the system's lock belongs to, and
    a call made on handle [i] of the family. *)
Definition call_on (impl : implementation) (fuel : nat) (i : nat) (c : call)
    (env : Env) (st : (nat -> FileLock) * OS)
    : option (option error * ((nat -> FileLock) * OS)) :=
  match do_call impl fuel c env (fst st i, snd st) with
  | None => None
  | Some (r, (fl, os)) => Some (r, (<[ i := fl ]> (fst st), os))
  end.

(** A run of calls on the handles of a family: the states after each call. *)
Fixpoint run_on (impl : implementation) (fuel : nat)
    (calls : list (nat * call * Env)) (st : (nat -> FileLock) * OS)
    : option (list ((nat -> FileLock) * OS)) :=
  match calls with
  | [] => Some []
  | (i, c, env) :: calls =>
      match call_on impl fuel i c env st with
      | None => None
      | Some (_, st) =>
          match run_on impl fuel calls st with
          | None => None
          | Some sts => Some (st :: sts)
          end
      end
  end.

(** The exclusive lock of the system: while a descriptor holds the lock, no
    attempt of the call is granted. *)
Definition exclusive (os : OS) (env : Env) : Prop :=
  lock_owner os <> None -> forall k, lock_outcome env k <> None.

(** The system is exclusive in every call of a run that tries for the
    lock. *)
Fixpoint exclusive_run (impl : implementation) (fuel : nat)
    (calls : list (nat * call * Env)) (st : (nat -> FileLock) * OS) : Prop :=
  match calls with
  | [] => True
  | (i, c, env) :: calls =>
      (c <> CallUnlock -> exclusive (snd st) env) /\
      match call_on impl fuel i c env st with
      | None => True
      | Some (_, st) => exclusive_run impl fuel calls st
      end
  end.

(** The fuel that is enough for every call of a run on a family. *)
Fixpoint run_on_fuel (calls : list (nat * call * Env)) : nat :=
  match calls with
  | [] => 0
  | (_, CallLockWithTimeout timeout, _) :: calls =>
      Nat.max (enough_fuel timeout) (run_on_fuel calls)
  | _ :: calls => run_on_fuel calls
  end.

(** At most one handle of the family is locked. *)
Definition at_most_one_locked (st : (nat -> FileLock) * OS) : Prop :=
  forall i j, locked (fst st i) = true -> locked (fst st j) = true -> i = j.

(** What the handles of a family and the system agree on: a locked handle
    has the descriptor that holds the lock, at most one handle is locked,
    and the descriptor that holds the lock was handed out before. *)
Definition agreement (st : (nat -> FileLock) * OS) : Prop :=
  (forall i, locked (fst st i) = true ->
     exists f, file (fst st i) = Some f /\ lock_owner (snd st) = Some f) /\
  at_most_one_locked st /\
  (forall f, lock_owner (snd st) = Some f -> (f < next_fd (snd st))%nat).

(** Answers of a system that says how things are at the start of the call:
    every attempt is granted when no descriptor holds the lock and refused
    with the error for a held lock otherwise; nothing else fails. *)
Definition answers (impl : implementation) (os : OS) : Env :=
  mkEnv None
        (fun _ => match lock_owner os with
                  | Some _ => Some (held_code impl)
                  | None => None
                  end)
        (fun _ => 0%N) None None.

(** ** The example program *)

(** What [fmt.Println] was given. *)
Inductive printed : Type :=
| PrintHandle (fl : FileLock)
| PrintError (err : option error)
| PrintBool (b : bool).

(** [main] of the example: [lockPath] is the value of
    [path.Join(os.TempDir(), "go-fs-test.lock")], [env1], [env2] and [env3]
    are the answers of the system during the three calls.  The result is
    what was printed, in order, and the state at the end. *)
Definition main (GOOS : string) (lockPath : string) (env1 env2 env3 : Env)
    (os : OS) : option (list printed * (FileLock * OS)) :=
  let '(impl, test) := fs.New GOOS lockPath in
  let out := [PrintHandle test] in
  match Lock impl 0 env1 (test, os) with
  | None => None
  | Some (err, st) =>
      let out := out ++ [PrintError err] in
      match Lock impl 0 env2 st with
      | None => None
      | Some (err, st) =>
          let out := out ++ [PrintError err] in
          let out := out ++ [PrintBool (IsLocked impl st)] in
          let '(_, st) := Unlock impl env3 st in
          Some (out, st)
      end
  end.

(** * Properties *)

(** ** The two packages run the same protocol *)

(** One iteration of the retry loop, in either package. *)
Lemma retry_unfold impl fuel env h timeout start iv n os :
  retry impl (S fuel) env h timeout start iv n os =
  if Since start os >=? timeout then Some (Some ErrTimeout, os)
  else
    match lock_outcome env (S n) with
    | None => Some (None, granted h (Sleep env n iv os))
    | Some e =>
        if bool_decide (e = held_code impl)
        then retry impl fuel env h timeout start (next_interval iv) (S n)
                   (Sleep env n iv os)
        else Some (Some (OsError e), Sleep env n iv os)
    end.
Proof.
  destruct impl; simpl;
    unfold windows.LockFileEx, unix.Flock_EX_NB, acquire;
    destruct (Since start os >=? timeout); try reflexivity;
    destruct (lock_outcome env (S n)) as [e|]; simpl; try reflexivity;
    unfold windows.ERROR_LOCK_VIOLATION, unix.EWOULDBLOCK;
    repeat case_bool_decide; simpl; congruence.
Qed.

Lemma retry_no_fuel impl env h timeout start iv n os :
  retry impl 0 env h timeout start iv n os = None.
Proof. destruct impl; reflexivity. Qed.

(** [tryLock], in either package. *)
Lemma tryLock_unfold impl fuel env h timeout os :
  tryLock impl fuel env h timeout os =
  match lock_outcome env 0 with
  | None => Some (None, granted h os)
  | Some e =>
      if bool_decide (e = held_code impl) then
        if timeout <=? 0 then Some (Some ErrLockHeld, os)
        else retry impl fuel env h timeout (clock os) (Millisecond * 10) 0 os
      else Some (Some (OsError e), os)
  end.
Proof.
  destruct impl; unfold tryLock, windows.tryLock, unix.tryLock,
    windows.LockFileEx, unix.Flock_EX_NB, acquire, Now;
    destruct (lock_outcome env 0) as [e|]; simpl; try reflexivity;
    unfold windows.ERROR_LOCK_VIOLATION, unix.EWOULDBLOCK;
    repeat case_bool_decide; simpl; congruence.
Qed.

(** [LockWithTimeout], in either package. *)
Lemma LockWithTimeout_unfold impl fuel env timeout fl os :
  LockWithTimeout impl fuel env timeout (fl, os) =
  if locked fl then Some (Some ErrAlreadyLocked, (fl, os))
  else
    match open_outcome env with
    | Some e => Some (Some (OsError e), (set_file None fl, os))
    | None =>
        match tryLock impl fuel env (next_fd os) timeout (opened os) with
        | None => None
        | Some (Some err, os') =>
            Some (Some err,
                  (set_file None (set_file (Some (next_fd os)) fl),
                   closed (next_fd os) os'))
        | Some (None, os') =>
            Some (None, (set_locked true (set_file (Some (next_fd os)) fl), os'))
        end
    end.
Proof.
  destruct impl; simpl; unfold OpenFile;
    destruct (locked fl); try reflexivity;
    destruct (open_outcome env); reflexivity.
Qed.

Lemma Lock_unfold impl fuel env st :
  Lock impl fuel env st = LockWithTimeout impl fuel env 0 st.
Proof. destruct impl; reflexivity. Qed.

(** [Unlock], in either package. *)
Lemma Unlock_unfold impl env fl os :
  Unlock impl env (fl, os) =
  match locked fl, file fl with
  | true, Some f =>
      match unlock_outcome env with
      | Some e => (Some (OsError e), (fl, os))
      | None =>
          (OsError <$> close_outcome env,
           (set_locked false (set_file None fl), closed f (released f os)))
      end
  | _, _ => (Some ErrNotLocked, (fl, os))
  end.
Proof.
  destruct impl; simpl; unfold windows.UnlockFileEx, unix.Flock_UN, release;
    destruct (locked fl), (file fl); try reflexivity;
    destruct (unlock_outcome env); reflexivity.
Qed.

(** ** Descriptors and the lock *)

Lemma drop_owner_same f : drop_owner f (Some f) = None.
Proof. unfold drop_owner. rewrite decide_True; reflexivity. Qed.

Lemma drop_owner_none f : drop_owner f None = None.
Proof. unfold drop_owner. case_decide; reflexivity. Qed.

Lemma drop_owner_gone f owner : drop_owner f owner <> Some f.
Proof. unfold drop_owner. case_decide; congruence. Qed.

(** A descriptor that was opened and closed again is not open, and the
    others are as they were. *)
Lemma reopened_not_open (f : nat) (X : gset nat) : f ∉ ({[ f ]} ∪ X) ∖ {[ f ]}.
Proof.
  intros Hin. apply elem_of_difference in Hin as [_ Hnot].
  apply Hnot, elem_of_singleton. reflexivity.
Qed.

Lemma opened_then_closed_empty (f : nat) :
  (({[ f ]} ∪ ∅) ∖ {[ f ]} : gset nat) = ∅.
Proof. rewrite union_empty_r_L. apply difference_diag_L. Qed.

(** ** The backoff schedule *)

Lemma next_interval_ge iv : 0 <= iv -> iv <= next_interval iv.
Proof.
  intros Hiv. unfold next_interval, mul_1_5.
  destruct (iv <? Millisecond * 100); [|lia].
  rewrite Z.quot_div_nonneg by lia.
  apply Z.div_le_lower_bound; lia.
Qed.

Lemma backoff_S n : backoff (S n) = next_interval (backoff n).
Proof. reflexivity. Qed.

Lemma backoff_ge n : Millisecond * 10 <= backoff n.
Proof.
  induction n as [|n IH]; [reflexivity|].
  rewrite backoff_S. etransitivity; [exact IH|].
  apply next_interval_ge. unfold Millisecond in IH. lia.
Qed.



(** ** The retry loop *)

(** More fuel does not change a result. *)
Lemma retry_mono impl fuel fuel' env h timeout start iv n os r :
  retry impl fuel env h timeout start iv n os = Some r ->
  (fuel <= fuel')%nat ->
  retry impl fuel' env h timeout start iv n os = Some r.
Proof.
  revert fuel' iv n os.
  induction fuel as [|fuel IH]; intros fuel' iv n os Hr Hle.
  - rewrite retry_no_fuel in Hr. discriminate.
  - destruct fuel' as [|fuel']; [lia|].
    rewrite retry_unfold in *.
    destruct (Since start os >=? timeout); [exact Hr|].
    destruct (lock_outcome env (S n)) as [e|]; [|exact Hr].
    case_bool_decide; [|exact Hr].
    apply IH; [exact Hr|lia].
Qed.

(** The loop returns: every iteration sleeps for 10ms at least, so the time
    left to the deadline bounds the number of iterations. *)
Lemma retry_terminates impl fuel env h timeout start iv n os :
  Millisecond * 10 <= iv ->
  timeout - Since start os <= Millisecond * 10 * (Z.of_nat fuel - 1) ->
  (1 <= fuel)%nat ->
  exists r, retry impl fuel env h timeout start iv n os = Some r.
Proof.
  revert iv n os.
  induction fuel as [|fuel IH]; intros iv n os Hiv Hleft Hfuel; [lia|].
  rewrite retry_unfold.
  destruct (Z.geb_spec (Since start os) timeout) as [Hge|Hlt]; [eauto|].
  destruct (lock_outcome env (S n)) as [e|]; [|eauto].
  case_bool_decide; [|eauto].
  assert (Hiv' : Millisecond * 10 <= next_interval iv).
  { etransitivity; [exact Hiv|]. apply next_interval_ge.
    unfold Millisecond in Hiv. lia. }
  apply IH; [exact Hiv'| |].
  - unfold Since, Sleep in *. simpl. unfold Millisecond in *. lia.
  - unfold Millisecond in *. lia.
Qed.

(** What the loop can return, and what it leaves behind: it opens and closes
    nothing; it ends with the lock granted to the descriptor, or at the
    deadline, or with an error of the primitive other than the one that says
    the lock is held, and in the last two cases the lock is where it was. *)
Lemma retry_result impl fuel env h timeout start iv n os err os' :
  retry impl fuel env h timeout start iv n os = Some (err, os') ->
  open_files os' = open_files os /\ next_fd os' = next_fd os /\
  ((err = None /\ lock_owner os' = Some h) \/
   (err = Some ErrTimeout /\ lock_owner os' = lock_owner os
      /\ timeout <= Since start os') \/
   (exists c k, err = Some (OsError c) /\ lock_outcome env k = Some c
      /\ c <> held_code impl /\ lock_owner os' = lock_owner os)).
Proof.
  revert iv n os.
  induction fuel as [|fuel IH]; intros iv n os Hr.
  - rewrite retry_no_fuel in Hr. discriminate.
  - rewrite retry_unfold in Hr.
    destruct (Z.geb_spec (Since start os) timeout) as [Hge|Hlt].
    { injection Hr as <- <-. repeat split. right. left. repeat split.
      exact Hge. }
    destruct (lock_outcome env (S n)) as [e|] eqn:He.
    + case_bool_decide as Hheld.
      * apply IH in Hr. exact Hr.
      * injection Hr as <- <-. repeat split. right. right.
        exists e, (S n). repeat split; assumption.
    + injection Hr as <- <-. repeat split. left. split; reflexivity.
Qed.

(** The intervals the loop sleeps are those of the schedule, in order. *)
Lemma retry_sleeps impl fuel env h timeout start n os err os' :
  retry impl fuel env h timeout start (backoff n) n os = Some (err, os') ->
  exists k, sleeps os' = rev (map backoff (seq n k)) ++ sleeps os.
Proof.
  revert n os.
  induction fuel as [|fuel IH]; intros n os Hr.
  - rewrite retry_no_fuel in Hr. discriminate.
  - rewrite retry_unfold in Hr.
    destruct (Since start os >=? timeout).
    { injection Hr as _ <-. exists 0%nat. reflexivity. }
    destruct (lock_outcome env (S n)) as [e|].
    + case_bool_decide.
      * rewrite <- backoff_S in Hr. apply IH in Hr as [k Hk].
        exists (S k). rewrite Hk. simpl. rewrite <- app_assoc. reflexivity.
      * injection Hr as _ <-. exists 1%nat. reflexivity.
    + injection Hr as _ <-. exists 1%nat. reflexivity.
Qed.

(** The deadline: the loop gives up only when the time since its start has
    reached the timeout, and the check before its last sleep had not
    reached it. *)
Lemma retry_deadline impl fuel env h timeout start n os os' :
  retry impl fuel env h timeout start (backoff n) n os
    = Some (Some ErrTimeout, os') ->
  timeout <= Since start os' /\
  (os' = os \/
   exists k rest, sleeps os' = backoff k :: rest /\
     Since start os' - backoff k - Z.of_N (sleep_extra env k) < timeout).
Proof.
  revert n os.
  induction fuel as [|fuel IH]; intros n os Hr.
  - rewrite retry_no_fuel in Hr. discriminate.
  - rewrite retry_unfold in Hr.
    destruct (Z.geb_spec (Since start os) timeout) as [Hge|Hlt].
    { injection Hr as <-. split; [exact Hge|]. left. reflexivity. }
    destruct (lock_outcome env (S n)) as [e|]; [|discriminate].
    case_bool_decide; [|discriminate].
    rewrite <- backoff_S in Hr. apply IH in Hr as [Hge [->|Hlast]].
    + split; [exact Hge|]. right. exists n, (sleeps os).
      split; [reflexivity|].
      pose proof (backoff_ge n) as Hb. unfold Millisecond in Hb.
      unfold Since, Sleep in *. simpl in *. lia.
    + split; [exact Hge|]. right. exact Hlast.
Qed.

(** ** tryLock *)

Lemma tryLock_mono impl fuel fuel' env h timeout os r :
  tryLock impl fuel env h timeout os = Some r ->
  (fuel <= fuel')%nat ->
  tryLock impl fuel' env h timeout os = Some r.
Proof.
  rewrite !tryLock_unfold. intros Hr Hle.
  destruct (lock_outcome env 0) as [e|]; [|exact Hr].
  case_bool_decide; [|exact Hr].
  destruct (timeout <=? 0); [exact Hr|].
  eapply retry_mono; eassumption.
Qed.

Lemma tryLock_terminates impl fuel env h timeout os :
  (enough_fuel timeout <= fuel)%nat ->
  exists r, tryLock impl fuel env h timeout os = Some r.
Proof.
  intros Hfuel. rewrite tryLock_unfold.
  destruct (lock_outcome env 0) as [e|]; [|eauto].
  case_bool_decide; [|eauto].
  destruct (Z.leb_spec timeout 0) as [Hle|Hgt]; [eauto|].
  apply retry_terminates; [lia| |unfold enough_fuel in Hfuel; lia].
  unfold Since. replace (clock os - clock os) with 0 by lia.
  unfold enough_fuel in Hfuel.
  assert (Hdiv : timeout < Millisecond * 10 * (timeout / (Millisecond * 10) + 1)).
  { pose proof (Z.mul_succ_div_gt timeout (Millisecond * 10)) as Hm.
    unfold Millisecond in *. lia. }
  assert (Hq : 0 <= timeout / (Millisecond * 10)).
  { apply Z.div_pos; unfold Millisecond; lia. }
  rewrite Z.max_l in Hfuel by lia.
  unfold Millisecond in *. lia.
Qed.

(** What [tryLock] can return, and what it leaves behind. *)
Lemma tryLock_result impl fuel env h timeout os err os' :
  tryLock impl fuel env h timeout os = Some (err, os') ->
  open_files os' = open_files os /\ next_fd os' = next_fd os /\
  ((err = None /\ lock_owner os' = Some h) \/
   (err = Some ErrLockHeld /\ timeout <= 0 /\ os' = os) \/
   (err = Some ErrTimeout /\ 0 < timeout /\ lock_owner os' = lock_owner os
      /\ timeout <= Since (clock os) os') \/
   (exists c k, err = Some (OsError c) /\ lock_outcome env k = Some c
      /\ c <> held_code impl /\ lock_owner os' = lock_owner os)).
Proof.
  rewrite tryLock_unfold. intros Hr.
  destruct (lock_outcome env 0) as [e|] eqn:He.
  - case_bool_decide as Hheld.
    + destruct (Z.leb_spec timeout 0) as [Hle|Hgt].
      * injection Hr as <- <-. repeat split. right. left. repeat split.
        exact Hle.
      * apply retry_result in Hr as (Hopen & Hnext & Hkind).
        split; [exact Hopen|]. split; [exact Hnext|].
        destruct Hkind as [Hk|[(-> & Hown & Hge)|Hk]].
        -- left. exact Hk.
        -- right. right. left. repeat split; assumption.
        -- right. right. right. exact Hk.
    + injection Hr as <- <-. repeat split. right. right. right.
      exists e, 0%nat. repeat split; assumption.
  - injection Hr as <- <-. repeat split. left. split; reflexivity.
Qed.

(** ** LockWithTimeout returns *)

Lemma LockWithTimeout_mono impl fuel fuel' env timeout st r :
  LockWithTimeout impl fuel env timeout st = Some r ->
  (fuel <= fuel')%nat ->
  LockWithTimeout impl fuel' env timeout st = Some r.
Proof.
  destruct st as [fl os]. rewrite !LockWithTimeout_unfold. intros Hr Hle.
  destruct (locked fl); [exact Hr|].
  destruct (open_outcome env); [exact Hr|].
  destruct (tryLock impl fuel env (next_fd os) timeout (opened os))
    as [r0|] eqn:Ht; [|discriminate].
  rewrite (tryLock_mono _ _ _ _ _ _ _ _ Ht Hle). exact Hr.
Qed.

Lemma LockWithTimeout_terminates impl fuel env timeout st :
  (enough_fuel timeout <= fuel)%nat ->
  exists r, LockWithTimeout impl fuel env timeout st = Some r.
Proof.
  intros Hfuel. destruct st as [fl os]. rewrite LockWithTimeout_unfold.
  destruct (locked fl); [eauto|].
  destruct (open_outcome env); [eauto|].
  destruct (tryLock_terminates impl fuel env (next_fd os) timeout (opened os)
              Hfuel) as [[[err|] os'] ->]; eauto.
Qed.

(** Every way a call of [LockWithTimeout] can end, with the state it
    leaves: refused because the handle is locked; the open failed; the lock
    was obtained; or the lock was not obtained and the descriptor was closed
    again. *)
Lemma LockWithTimeout_result impl fuel env timeout fl os r fl' os' :
  LockWithTimeout impl fuel env timeout (fl, os) = Some (r, (fl', os')) ->
  (locked fl = true /\ r = Some ErrAlreadyLocked /\ fl' = fl /\ os' = os) \/
  (locked fl = false /\ fl' = set_file None fl /\ os' = os /\
     exists c, open_outcome env = Some c /\ r = Some (OsError c)) \/
  (locked fl = false /\ open_outcome env = None /\ r = None /\
     fl' = mkFileLock (path fl) (Some (next_fd os)) true /\
     open_files os' = {[ next_fd os ]} ∪ open_files os /\
     lock_owner os' = Some (next_fd os)) \/
  (locked fl = false /\ open_outcome env = None /\
     fl' = set_file None fl /\
     open_files os' = ({[ next_fd os ]} ∪ open_files os) ∖ {[ next_fd os ]} /\
     lock_owner os' = drop_owner (next_fd os) (lock_owner os) /\
     ((r = Some ErrLockHeld /\ timeout <= 0) \/
      (r = Some ErrTimeout /\ 0 < timeout) \/
      (exists c k, r = Some (OsError c) /\ lock_outcome env k = Some c
         /\ c <> held_code impl))).
Proof.
  rewrite LockWithTimeout_unfold. intros Hr.
  destruct (locked fl) eqn:Hlocked.
  { injection Hr as <- <- <-. left. repeat split. }
  destruct (open_outcome env) as [c|] eqn:Hopen.
  { injection Hr as <- <- <-. right. left. repeat split. eauto. }
  destruct (tryLock impl fuel env (next_fd os) timeout (opened os))
    as [[err os1]|] eqn:Ht; [|discriminate].
  apply tryLock_result in Ht as (Hfiles & _ & Hkind).
  destruct err as [err|].
  - injection Hr as <- <- <-. right. right. right.
    split; [reflexivity|]. split; [reflexivity|]. split; [reflexivity|].
    simpl. rewrite Hfiles. split; [reflexivity|].
    destruct Hkind as [[Hno _]|[(Herr & Hle & ->)|[(Herr & Hgt & Hown & _)|Hos]]].
    + discriminate.
    + split; [reflexivity|]. left. split; [exact Herr|exact Hle].
    + rewrite Hown. split; [reflexivity|]. right. left.
      split; [exact Herr|exact Hgt].
    + destruct Hos as (c & k & Herr & Hk & Hne & Hown). rewrite Hown.
      split; [reflexivity|]. right. right. exists c, k. repeat split; assumption.
  - injection Hr as <- <- <-. right. right. left.
    destruct Hkind as [[_ Hown]|[(Herr & _)|[(Herr & _)|(c & k & Herr & _)]]];
      try discriminate.
    repeat split; assumption.
Qed.

(** * The claims *)

(** ** Unlock when the release of the primitive fails *)

(** C1, as the spec states it, fails on the code: with the lock held through
    descriptor 3 and a release that the system refuses, [Unlock] returns the
    system's error and changes nothing in either package; the handle is still
    locked, still has its descriptor, and the descriptor is still open. *)
Lemma Unlock_release_error_keeps_lock :
  Unlock Windows (release_fails 158) held_state
    = (Some (OsError 158), held_state) /\
  Unlock Unix (release_fails 9) held_state
    = (Some (OsError 9), held_state) /\
  locked (fst held_state) = true /\
  file (fst held_state) = Some 3%nat /\
  3%nat ∈ open_files (snd held_state).
Proof.
  split; [reflexivity|]. split; [reflexivity|].
  split; [reflexivity|]. split; [reflexivity|].
  unfold held_state. simpl. apply elem_of_singleton. reflexivity.
Qed.

(** C1, amended: for every handle in the locked state, if the release of the
    primitive fails during Unlock, Unlock returns that error and leaves the
    handle and the system as they were: the descriptor is kept open and
    [locked] stays true. *)
Theorem Unlock_release_error_leaves_state impl env fl os f e :
  locked fl = true ->
  file fl = Some f ->
  unlock_outcome env = Some e ->
  Unlock impl env (fl, os) = (Some (OsError e), (fl, os)).
Proof.
  intros Hlocked Hfile Hrel.
  rewrite Unlock_unfold, Hlocked, Hfile, Hrel. reflexivity.
Qed.

Lemma Unlock_release_error_leaves_state_witness :
  locked (fst held_state) = true /\
  file (fst held_state) = Some 3%nat /\
  unlock_outcome (release_fails 158) = Some 158 /\
  Unlock Unix (release_fails 158) (fst held_state, snd held_state)
    = (Some (OsError 158), (fst held_state, snd held_state)).
Proof.
  split; [reflexivity|]. split; [reflexivity|]. split; [reflexivity|].
  apply (Unlock_release_error_leaves_state Unix (release_fails 158)
           (fst held_state) (snd held_state) 3%nat 158); reflexivity.
Defined.

(** ** Locking a handle that is locked *)

(** C8: on a handle whose [locked] flag is true, Lock and LockWithTimeout
    (with any timeout) return AlreadyLocked, and neither the handle nor the
    system changes. *)
Theorem relock_returns_AlreadyLocked impl fuel env timeout fl os :
  locked fl = true ->
  Lock impl fuel env (fl, os) = Some (Some ErrAlreadyLocked, (fl, os)) /\
  LockWithTimeout impl fuel env timeout (fl, os)
    = Some (Some ErrAlreadyLocked, (fl, os)).
Proof.
  intros Hlocked.
  rewrite Lock_unfold, !LockWithTimeout_unfold, Hlocked. split; reflexivity.
Qed.

Lemma relock_returns_AlreadyLocked_witness :
  locked (fst held_state) = true /\
  Lock Windows 0 quiet (fst held_state, snd held_state)
    = Some (Some ErrAlreadyLocked, (fst held_state, snd held_state)) /\
  LockWithTimeout Windows 0 quiet (500 * Millisecond)
      (fst held_state, snd held_state)
    = Some (Some ErrAlreadyLocked, (fst held_state, snd held_state)).
Proof.
  split; [reflexivity|].
  apply (relock_returns_AlreadyLocked Windows 0 quiet (500 * Millisecond)
           (fst held_state) (snd held_state)).
  reflexivity.
Defined.

(** ** Lock and the timeouts that do not wait *)

(** A call with no time to wait makes one attempt, in either package. *)
Lemma LockWithTimeout_nonpositive impl fuel env timeout st :
  timeout <= 0 ->
  LockWithTimeout impl fuel env timeout st = Some (single_attempt impl env st).
Proof.
  intros Hle. destruct st as [fl os].
  rewrite LockWithTimeout_unfold, tryLock_unfold. unfold single_attempt.
  destruct (locked fl) eqn:Hlocked; [reflexivity|].
  destruct (open_outcome env) as [c|].
  { unfold set_file. rewrite Hlocked. reflexivity. }
  simpl. destruct (lock_outcome env 0) as [e|]; [|reflexivity].
  case_bool_decide.
  - destruct (Z.leb_spec timeout 0); [|lia].
    unfold set_file. simpl. rewrite Hlocked. reflexivity.
  - unfold set_file. simpl. rewrite Hlocked. reflexivity.
Qed.

(** The single attempt leaves the clock and the record of sleeps alone, and
    ends in success, AlreadyLocked, LockHeld or an error of the system. *)
Lemma single_attempt_no_sleep impl env st :
  sleeps (snd (snd (single_attempt impl env st))) = sleeps (snd st) /\
  clock (snd (snd (single_attempt impl env st))) = clock (snd st) /\
  (fst (single_attempt impl env st) = None \/
   fst (single_attempt impl env st) = Some ErrAlreadyLocked \/
   fst (single_attempt impl env st) = Some ErrLockHeld \/
   exists c, fst (single_attempt impl env st) = Some (OsError c)).
Proof.
  destruct st as [fl os]. unfold single_attempt.
  destruct (locked fl); [simpl; auto|].
  destruct (open_outcome env) as [c|].
  { simpl. repeat split. right. right. right. exists c. reflexivity. }
  destruct (lock_outcome env 0) as [e|]; [|simpl; auto].
  destruct (bool_decide (e = held_code impl)); simpl; repeat split.
  - right. right. left. reflexivity.
  - right. right. right. exists e. reflexivity.
Qed.

(** C9: for every handle state and all answers of the system, Lock gives the
    result and the state that LockWithTimeout(0) gives; both are the single
    non-blocking attempt of the spec. *)
Theorem Lock_is_LockWithTimeout_0 impl fuel env st :
  Lock impl fuel env st = LockWithTimeout impl fuel env 0 st /\
  Lock impl fuel env st = Some (single_attempt impl env st).
Proof.
  split; [apply Lock_unfold|].
  rewrite Lock_unfold. apply LockWithTimeout_nonpositive. lia.
Qed.

(** C10: for every strictly negative duration [d], LockWithTimeout(d) gives
    the result and the state that LockWithTimeout(0) gives; the result is
    never Timeout, and it is LockHeld when the file opens and the primitive
    says the lock is held. *)
Theorem negative_timeout_is_zero_timeout impl fuel env d st :
  d < 0 ->
  LockWithTimeout impl fuel env d st = LockWithTimeout impl fuel env 0 st /\
  (exists r st', LockWithTimeout impl fuel env d st = Some (r, st')
     /\ r <> Some ErrTimeout) /\
  (locked (fst st) = false -> open_outcome env = None ->
   lock_outcome env 0 = Some (held_code impl) ->
   exists st', LockWithTimeout impl fuel env d st = Some (Some ErrLockHeld, st')).
Proof.
  intros Hd.
  rewrite (LockWithTimeout_nonpositive impl fuel env d) by lia.
  rewrite (LockWithTimeout_nonpositive impl fuel env 0) by lia.
  split; [reflexivity|]. split.
  - destruct (single_attempt impl env st) as [r st'] eqn:Hs.
    exists r, st'. split; [reflexivity|].
    pose proof (single_attempt_no_sleep impl env st) as (_ & _ & Hkind).
    rewrite Hs in Hkind. simpl in Hkind.
    destruct Hkind as [->|[->|[->|[c ->]]]]; discriminate.
  - destruct st as [fl os]. simpl. intros Hlocked Hopen Hheld.
    unfold single_attempt. rewrite Hlocked, Hopen, Hheld.
    rewrite bool_decide_eq_true_2 by reflexivity. eauto.
Qed.

Lemma negative_timeout_is_zero_timeout_witness :
  -1 < 0 /\
  LockWithTimeout Unix 0 (contended Unix) (-1) (fresh_state Unix)
    = LockWithTimeout Unix 0 (contended Unix) 0 (fresh_state Unix) /\
  (exists r st',
     LockWithTimeout Unix 0 (contended Unix) (-1) (fresh_state Unix)
       = Some (r, st') /\ r <> Some ErrTimeout) /\
  (locked (fst (fresh_state Unix)) = false ->
   open_outcome (contended Unix) = None ->
   lock_outcome (contended Unix) 0 = Some (held_code Unix) ->
   exists st',
     LockWithTimeout Unix 0 (contended Unix) (-1) (fresh_state Unix)
       = Some (Some ErrLockHeld, st')).
Proof.
  split; [reflexivity|].
  apply (negative_timeout_is_zero_timeout Unix 0 (contended Unix) (-1)
           (fresh_state Unix)).
  reflexivity.
Defined.

Lemma single_attempt_at_once impl env st :
  returned_at_once st (Some (single_attempt impl env st)).
Proof.
  pose proof (single_attempt_no_sleep impl env st) as (Hs & Hc & Hkind).
  destruct (single_attempt impl env st) as [r st'].
  exists r, st'. repeat split; assumption.
Qed.

(** C7: a Lock call, and a LockWithTimeout call with timeout <= 0, performs
    no sleep: it returns after the single non-blocking attempt, with success
    or with AlreadyLocked, LockHeld or an error of the system, and has not
    entered the retry loop (the statement holds with no fuel at all, and no
    time has passed). *)
Theorem nonblocking_calls_never_sleep impl fuel env timeout st :
  timeout <= 0 ->
  returned_at_once st (Lock impl fuel env st) /\
  returned_at_once st (LockWithTimeout impl fuel env timeout st).
Proof.
  intros Hle. rewrite Lock_unfold.
  rewrite (LockWithTimeout_nonpositive impl fuel env 0) by lia.
  rewrite (LockWithTimeout_nonpositive impl fuel env timeout) by exact Hle.
  split; apply single_attempt_at_once.
Qed.

Lemma nonblocking_calls_never_sleep_witness :
  -5 <= 0 /\
  returned_at_once (fresh_state Windows)
    (Lock Windows 0 (contended Windows) (fresh_state Windows)) /\
  returned_at_once (fresh_state Windows)
    (LockWithTimeout Windows 0 (contended Windows) (-5) (fresh_state Windows)).
Proof.
  split; [discriminate|].
  apply (nonblocking_calls_never_sleep Windows 0 (contended Windows) (-5)
           (fresh_state Windows)).
  discriminate.
Defined.

(** ** The errors of LockWithTimeout *)

(** C4, as the spec states it, fails on the code: with timeout 0 and the
    lock held by another holder, LockWithTimeout returns LockHeld, which is
    none of AlreadyLocked, Timeout and the errors of the system. *)
Lemma LockWithTimeout_0_contended_is_LockHeld :
  LockWithTimeout Windows 0 (contended Windows) 0 (fresh_state Windows)
    = Some (Some ErrLockHeld, (New Windows "job.lock", boot 0 4)) /\
  LockWithTimeout Unix 0 (contended Unix) 0 (fresh_state Unix)
    = Some (Some ErrLockHeld, (New Unix "job.lock", boot 0 4)).
Proof. split; vm_compute; reflexivity. Qed.

(** C4, amended: every LockWithTimeout call with a duration >= 0 returns,
    and when it fails it returns one of AlreadyLocked, LockHeld (only when
    the duration is 0), Timeout (only when the duration is positive), or an
    error that the system gave to the open or to an attempt on the
    primitive, unchanged. *)
Theorem LockWithTimeout_failure_kinds impl fuel env timeout st :
  0 <= timeout ->
  (enough_fuel timeout <= fuel)%nat ->
  exists r st',
    LockWithTimeout impl fuel env timeout st = Some (r, st') /\
    (r = None \/
     r = Some ErrAlreadyLocked \/
     (r = Some ErrLockHeld /\ timeout = 0) \/
     (r = Some ErrTimeout /\ 0 < timeout) \/
     (exists c, r = Some (OsError c) /\
        (open_outcome env = Some c \/ exists k, lock_outcome env k = Some c))).
Proof.
  intros Hpos Hfuel.
  destruct (LockWithTimeout_terminates impl fuel env timeout st Hfuel)
    as [[r [fl' os']] Hr].
  exists r, (fl', os'). split; [exact Hr|].
  destruct st as [fl os].
  apply LockWithTimeout_result in Hr
    as [(_ & -> & _)|[(_ & _ & _ & c & Hc & ->)|[(_ & _ & -> & _)|Hfail]]].
  - right. left. reflexivity.
  - right. right. right. right. exists c. split; [reflexivity|]. left. exact Hc.
  - left. reflexivity.
  - destruct Hfail as (_ & _ & _ & _ & _ & [[-> Hle]|[[-> Hgt]|Hos]]).
    + right. right. left. split; [reflexivity|lia].
    + right. right. right. left. split; [reflexivity|exact Hgt].
    + destruct Hos as (c & k & -> & Hk & _).
      right. right. right. right. exists c. split; [reflexivity|].
      right. exists k. exact Hk.
Qed.

Lemma LockWithTimeout_failure_kinds_witness :
  0 <= 100 * Millisecond /\
  (enough_fuel (100 * Millisecond) <= 12)%nat /\
  exists r st',
    LockWithTimeout Windows 12 (contended Windows) (100 * Millisecond)
      (fresh_state Windows) = Some (r, st') /\
    (r = None \/
     r = Some ErrAlreadyLocked \/
     (r = Some ErrLockHeld /\ 100 * Millisecond = 0) \/
     (r = Some ErrTimeout /\ 0 < 100 * Millisecond) \/
     (exists c, r = Some (OsError c) /\
        (open_outcome (contended Windows) = Some c \/
         exists k, lock_outcome (contended Windows) k = Some c))).
Proof.
  split; [discriminate|]. split; [vm_compute; lia|].
  apply (LockWithTimeout_failure_kinds Windows 12 (contended Windows)
           (100 * Millisecond) (fresh_state Windows)).
  - discriminate.
  - vm_compute. lia.
Defined.

(** ** No descriptor is left behind, and no flag without a lock *)

(** C5: a LockWithTimeout call on an unlocked handle whose file opens
    returns; if it fails (an error of the primitive, LockHeld or Timeout),
    the descriptor it opened is closed again and holds no lock, the handle
    has no descriptor and [locked] is false; and [locked] is true afterwards
    only when the call succeeded, with the descriptor open and holding the
    lock. *)
Theorem LockWithTimeout_failure_cleanup impl fuel env timeout fl os :
  locked fl = false ->
  open_outcome env = None ->
  (enough_fuel timeout <= fuel)%nat ->
  exists r fl' os',
    LockWithTimeout impl fuel env timeout (fl, os) = Some (r, (fl', os')) /\
    (r <> None ->
       (next_fd os ∉ open_files os') /\
       lock_owner os' <> Some (next_fd os) /\
       file fl' = None /\ locked fl' = false) /\
    (locked fl' = true ->
       r = None /\ file fl' = Some (next_fd os) /\
       (next_fd os ∈ open_files os') /\
       lock_owner os' = Some (next_fd os)).
Proof.
  intros Hlocked Hopen Hfuel.
  destruct (LockWithTimeout_terminates impl fuel env timeout (fl, os) Hfuel)
    as [[r [fl' os']] Hr].
  exists r, fl', os'. split; [exact Hr|].
  apply LockWithTimeout_result in Hr
    as [(Hl & _)|[(_ & _ & _ & c & Hc & _)|[Hok|Hfail]]]; [congruence..| |].
  - destruct Hok as (_ & _ & -> & -> & Hfiles & Hown). split.
    + intros Hr. congruence.
    + intros _. rewrite Hfiles, Hown. repeat split.
      apply elem_of_union_l, elem_of_singleton. reflexivity.
  - destruct Hfail as (_ & _ & -> & Hfiles & Hown & Hkind). split.
    + intros _. rewrite Hfiles, Hown. split; [apply reopened_not_open|].
      split; [apply drop_owner_gone|]. split; [reflexivity|exact Hlocked].
    + simpl. rewrite Hlocked. discriminate.
Qed.

Lemma LockWithTimeout_failure_cleanup_witness :
  locked (New Unix "job.lock") = false /\
  open_outcome (contended Unix) = None /\
  (enough_fuel (100 * Millisecond) <= 12)%nat /\
  exists r fl' os',
    LockWithTimeout Unix 12 (contended Unix) (100 * Millisecond)
      (New Unix "job.lock", boot 0 3) = Some (r, (fl', os')) /\
    (r <> None ->
       (next_fd (boot 0 3) ∉ open_files os') /\
       lock_owner os' <> Some (next_fd (boot 0 3)) /\
       file fl' = None /\ locked fl' = false) /\
    (locked fl' = true ->
       r = None /\ file fl' = Some (next_fd (boot 0 3)) /\
       (next_fd (boot 0 3) ∈ open_files os') /\
       lock_owner os' = Some (next_fd (boot 0 3))).
Proof.
  split; [reflexivity|]. split; [reflexivity|]. split; [vm_compute; lia|].
  apply (LockWithTimeout_failure_cleanup Unix 12 (contended Unix)
           (100 * Millisecond) (New Unix "job.lock") (boot 0 3)).
  - reflexivity.
  - reflexivity.
  - vm_compute. lia.
Defined.

(** ** The state invariant *)

Lemma invariant_boot impl name t n : invariant (New impl name, boot t n).
Proof.
  destruct impl; simpl; (split; [discriminate|]); intros _; repeat split.
Qed.

Lemma LockWithTimeout_invariant impl fuel env timeout st r st' :
  invariant st ->
  LockWithTimeout impl fuel env timeout st = Some (r, st') ->
  invariant st'.
Proof.
  destruct st as [fl os], st' as [fl' os']. intros [Hon Hoff] Hr.
  apply LockWithTimeout_result in Hr
    as [(_ & _ & -> & ->)|[(Hl & -> & -> & _)|[Hok|Hfail]]].
  - split; assumption.
  - destruct (Hoff Hl) as (_ & Hfiles & Hown).
    split; simpl; [rewrite Hl; discriminate|]. intros _. repeat split; assumption.
  - destruct Hok as (Hl & _ & _ & -> & Hfiles & Hown).
    destruct (Hoff Hl) as (_ & Hnone & _).
    split; simpl; [|discriminate]. intros _. exists (next_fd os).
    split; [reflexivity|]. split; [|exact Hown].
    rewrite Hfiles, Hnone. apply union_empty_r_L.
  - destruct Hfail as (Hl & _ & -> & Hfiles & Hown & _).
    destruct (Hoff Hl) as (_ & Hnone & Hfree).
    split; simpl; [rewrite Hl; discriminate|]. intros _.
    split; [reflexivity|]. split.
    + rewrite Hfiles, Hnone. apply opened_then_closed_empty.
    + rewrite Hown, Hfree. apply drop_owner_none.
Qed.

Lemma Unlock_invariant impl env st :
  invariant st -> invariant (snd (Unlock impl env st)).
Proof.
  destruct st as [fl os]. intros [Hon Hoff]. rewrite Unlock_unfold.
  destruct (locked fl) eqn:Hl.
  - destruct (Hon eq_refl) as (f & Hf & Hfiles & Hown). rewrite Hf.
    destruct (unlock_outcome env).
    + simpl. split; [|congruence]. intros _. exists f. repeat split; assumption.
    + simpl. split; [discriminate|]. intros _. split; [reflexivity|].
      rewrite Hfiles, Hown, drop_owner_same, drop_owner_none.
      split; [apply difference_diag_L|reflexivity].
  - simpl. split; [congruence|]. intros _. apply Hoff. reflexivity.
Qed.

Lemma do_call_invariant impl fuel c env st r st' :
  invariant st -> do_call impl fuel c env st = Some (r, st') -> invariant st'.
Proof.
  intros Hinv. destruct c as [|timeout|]; simpl.
  - rewrite Lock_unfold. apply LockWithTimeout_invariant. exact Hinv.
  - apply LockWithTimeout_invariant. exact Hinv.
  - intros Hr. injection Hr as Hr.
    pose proof (Unlock_invariant impl env st Hinv) as Hu.
    rewrite Hr in Hu. exact Hu.
Qed.

Lemma do_call_returns impl fuel c env st :
  (run_fuel [(c, env)] <= fuel)%nat ->
  exists r, do_call impl fuel c env st = Some r.
Proof.
  destruct c as [|timeout|]; simpl; intros Hfuel.
  - rewrite Lock_unfold, LockWithTimeout_nonpositive by lia. eauto.
  - apply LockWithTimeout_terminates. lia.
  - eauto.
Qed.

Lemma run_invariant impl fuel calls st :
  invariant st ->
  (run_fuel calls <= fuel)%nat ->
  exists sts, run impl fuel calls st = Some sts /\
    length sts = length calls /\ Forall invariant sts.
Proof.
  revert st. induction calls as [|[c env] calls IH]; intros st Hinv Hfuel.
  - exists []. repeat split. constructor.
  - assert (Hc : (run_fuel [(c, env)] <= fuel)%nat).
    { destruct c; simpl in *; lia. }
    assert (Hrest : (run_fuel calls <= fuel)%nat).
    { destruct c; simpl in *; lia. }
    destruct (do_call_returns impl fuel c env st Hc) as [[r st'] Hr].
    pose proof (do_call_invariant impl fuel c env st r st' Hinv Hr) as Hinv'.
    destruct (IH st' Hinv' Hrest) as (sts & Hrun & Hlen & Hall).
    exists (st' :: sts). simpl. rewrite Hr, Hrun.
    split; [reflexivity|]. split; [simpl; congruence|].
    constructor; assumption.
Qed.

(** C6: for every handle and every sequence of Lock, LockWithTimeout and
    Unlock calls made on it from its creation, whatever the system answers,
    every call returns and the state invariant holds after each call: when
    [locked] is true the handle's descriptor is open and holds the exclusive
    lock, and when [locked] is false the handle has no descriptor and
    nothing is left open. *)
Theorem invariant_after_every_call impl name t n calls more :
  exists sts,
    run impl (run_fuel calls + more) calls (New impl name, boot t n)
      = Some sts /\
    length sts = length calls /\
    Forall invariant sts.
Proof.
  apply run_invariant; [apply invariant_boot|lia].
Qed.

(** ** The backoff schedule against its ceiling *)

(** C2: the code does not keep the schedule under 100ms.  Against a lock
    that is held throughout, LockWithTimeout(250ms) sleeps 10ms, 15ms,
    22.5ms, 33.75ms, 50.625ms, 75.9375ms and then 113.90625ms: the step
    multiplies every interval below 100ms by 1.5 and so takes 75.9375ms
    past the ceiling that the comment in the source and the spec name. *)
Theorem backoff_exceeds_100ms impl :
  LockWithTimeout impl (enough_fuel (250 * Millisecond)) (contended impl)
      (250 * Millisecond) (fresh_state impl)
    = Some (Some ErrTimeout,
            (New impl "job.lock",
             mkOS ∅ None 4 321718750
                  [113906250; 75937500; 50625000; 33750000; 22500000;
                   15000000; 10000000])) /\
  backoff 0 = Millisecond * 10 /\
  backoff 6 = 113906250 /\
  Millisecond * 100 < backoff 6.
Proof. destruct impl; vm_compute; repeat split. Qed.

(** ** The time at which a contended call gives up *)









(** * Further properties of the handle *)

(** ** Unlock on a handle that is not locked *)

(** X1: Unlock on a handle that is not locked, or that has no descriptor,
    returns NotLocked and changes nothing. *)
Theorem Unlock_not_locked impl env fl os :
  locked fl = false \/ file fl = None ->
  Unlock impl env (fl, os) = (Some ErrNotLocked, (fl, os)).
Proof.
  intros Hnot. rewrite Unlock_unfold.
  destruct Hnot as [-> | ->]; [reflexivity|].
  destruct (locked fl); reflexivity.
Qed.

Lemma Unlock_not_locked_witness :
  (locked (New Windows "job.lock") = false \/
   file (New Windows "job.lock") = None) /\
  Unlock Windows quiet (New Windows "job.lock", boot 0 3)
    = (Some ErrNotLocked, (New Windows "job.lock", boot 0 3)).
Proof.
  split; [left; reflexivity|].
  apply (Unlock_not_locked Windows quiet (New Windows "job.lock") (boot 0 3)).
  left. reflexivity.
Defined.

(** ** A cycle of Lock and Unlock *)

(** X2: on an unlocked handle, when the file opens and the primitive grants
    the lock at once, Lock succeeds and IsLocked is true; when the system then
    lets the lock go, Unlock closes the descriptor, returns what Close
    returned, and IsLocked is false again. *)
Theorem Lock_then_Unlock impl fuel env1 env2 fl os :
  locked fl = false ->
  open_outcome env1 = None ->
  lock_outcome env1 0 = None ->
  unlock_outcome env2 = None ->
  exists st1 st2,
    Lock impl fuel env1 (fl, os) = Some (None, st1) /\
    IsLocked impl st1 = true /\
    Unlock impl env2 st1 = (OsError <$> close_outcome env2, st2) /\
    IsLocked impl st2 = false /\
    file (fst st2) = None /\
    (next_fd os ∉ open_files (snd st2)).
Proof.
  intros Hlocked Hopen Hgrant Hrel.
  rewrite Lock_unfold, LockWithTimeout_unfold, Hlocked, Hopen.
  rewrite tryLock_unfold, Hgrant.
  eexists _, _. split; [reflexivity|].
  split; [destruct impl; reflexivity|].
  rewrite Unlock_unfold. simpl. rewrite Hrel.
  split; [reflexivity|]. split; [destruct impl; reflexivity|].
  split; [reflexivity|]. simpl.
  intros Hin. apply elem_of_difference in Hin as [_ Hnot].
  apply Hnot, elem_of_singleton. reflexivity.
Qed.

Lemma Lock_then_Unlock_witness :
  locked (New Unix "job.lock") = false /\
  open_outcome quiet = None /\
  lock_outcome quiet 0 = None /\
  unlock_outcome quiet = None /\
  exists st1 st2,
    Lock Unix 0 quiet (New Unix "job.lock", boot 0 3) = Some (None, st1) /\
    IsLocked Unix st1 = true /\
    Unlock Unix quiet st1 = (OsError <$> close_outcome quiet, st2) /\
    IsLocked Unix st2 = false /\
    file (fst st2) = None /\
    (next_fd (boot 0 3) ∉ open_files (snd st2)).
Proof.
  split; [reflexivity|]. split; [reflexivity|]. split; [reflexivity|].
  split; [reflexivity|].
  apply (Lock_then_Unlock Unix 0 quiet quiet (New Unix "job.lock") (boot 0 3));
    reflexivity.
Defined.

(** ** Every call returns, and sleeps by the schedule *)

(** X3: LockWithTimeout returns: there is one result that every run with
    enough fuel for the loop gives. *)
Theorem LockWithTimeout_returns impl env timeout st :
  exists r, forall fuel,
    (enough_fuel timeout <= fuel)%nat ->
    LockWithTimeout impl fuel env timeout st = Some r.
Proof.
  destruct (LockWithTimeout_terminates impl (enough_fuel timeout) env timeout
              st (Nat.le_refl _)) as [r Hr].
  exists r. intros fuel Hfuel.
  eapply LockWithTimeout_mono; eassumption.
Qed.

(** X4: the intervals a call sleeps are the first intervals of the schedule,
    in order: 10ms first, and each next one 1.5 times the one before as long as
    that one is below 100ms. *)
Theorem sleeps_follow_schedule impl env timeout st more :
  exists r st' k,
    LockWithTimeout impl (enough_fuel timeout + more) env timeout st
      = Some (r, st') /\
    sleeps (snd st') = rev (map backoff (seq 0 k)) ++ sleeps (snd st) /\
    backoff 0 = Millisecond * 10 /\
    (forall n, backoff (S n)
               = if backoff n <? Millisecond * 100
                 then Z.quot (backoff n * 3) 2 else backoff n).
Proof.
  destruct (LockWithTimeout_terminates impl (enough_fuel timeout + more) env
              timeout st) as [[r st'] Hr]; [lia|].
  exists r, st'.
  assert (Hk : exists k,
             sleeps (snd st') = rev (map backoff (seq 0 k)) ++ sleeps (snd st)).
  { destruct st as [fl os]. rewrite LockWithTimeout_unfold in Hr.
    destruct (locked fl).
    { injection Hr as _ <-. exists 0%nat. reflexivity. }
    destruct (open_outcome env).
    { injection Hr as _ <-. exists 0%nat. reflexivity. }
    rewrite tryLock_unfold in Hr.
    destruct (lock_outcome env 0) as [e|].
    - destruct (bool_decide (e = held_code impl)).
      + destruct (timeout <=? 0).
        { injection Hr as _ <-. exists 0%nat. reflexivity. }
        destruct (retry impl (enough_fuel timeout + more) env (next_fd os)
                    timeout (clock (opened os)) (Millisecond * 10) 0
                    (opened os)) as [[err os1]|] eqn:Hretry; [|discriminate].
        apply (retry_sleeps impl _ env _ timeout _ 0) in Hretry as [k Hk].
        exists k.
        destruct err; injection Hr as _ <-; exact Hk.
      + injection Hr as _ <-. exists 0%nat. reflexivity.
    - injection Hr as _ <-. exists 0%nat. reflexivity. }
  destruct Hk as [k Hk]. exists k.
  split; [exact Hr|]. split; [exact Hk|]. split; [reflexivity|].
  intros n. reflexivity.
Qed.

(** ** A lock that is released during the wait *)





(** With exact sleeps, four iterations of the loop take 81.25ms. *)
Lemma waited_four_iterations impl :
  waited (released_after impl 3) 3 = 47500000 /\
  waited (released_after impl 3) 4 = 81250000.
Proof. split; reflexivity. Qed.

(** ** How early a contended call can give up *)





(** ** The ways Unlock ends *)

(** X7: Unlock ends in one of three ways.  It returns NotLocked and changes
    nothing, when the handle is not locked or has no descriptor.  It returns
    the error of a refused release and changes nothing.  Or the release is
    done: the descriptor is closed and holds no lock, the handle is unlocked
    and has no descriptor, and what is returned is what Close returned, so an
    error of Close comes back from an Unlock that did unlock. *)
Theorem Unlock_outcomes impl env fl os :
  exists r fl' os',
    Unlock impl env (fl, os) = (r, (fl', os')) /\
    ((r = Some ErrNotLocked /\ fl' = fl /\ os' = os /\
        (locked fl = false \/ file fl = None)) \/
     (exists e, unlock_outcome env = Some e /\ r = Some (OsError e) /\
        fl' = fl /\ os' = os /\ locked fl = true) \/
     (exists f, unlock_outcome env = None /\ locked fl = true /\
        file fl = Some f /\
        r = OsError <$> close_outcome env /\
        locked fl' = false /\ file fl' = None /\ path fl' = path fl /\
        (f ∉ open_files os') /\ lock_owner os' <> Some f)).
Proof.
  rewrite Unlock_unfold.
  destruct (locked fl) eqn:Hlocked.
  - destruct (file fl) as [f|] eqn:Hfile.
    + destruct (unlock_outcome env) as [e|] eqn:Hrel.
      * eexists _, _, _. split; [reflexivity|]. right. left.
        exists e. repeat split.
      * eexists _, _, _. split; [reflexivity|]. right. right.
        exists f. repeat split.
        -- simpl. intros Hin. apply elem_of_difference in Hin as [_ Hnot].
           apply Hnot, elem_of_singleton. reflexivity.
        -- simpl. apply drop_owner_gone.
    + eexists _, _, _. split; [reflexivity|]. left. repeat split.
      right. reflexivity.
  - eexists _, _, _. split; [reflexivity|]. left. repeat split.
    left. reflexivity.
Qed.

(** ** Errors that are not contention *)




(** ** A longer timeout *)

(** A result of the loop other than Timeout is the result under every
    longer timeout. *)
Lemma retry_longer_timeout impl fuel env h t1 t2 start iv n os r os' :
  t1 <= t2 ->
  retry impl fuel env h t1 start iv n os = Some (r, os') ->
  r <> Some ErrTimeout ->
  retry impl fuel env h t2 start iv n os = Some (r, os').
Proof.
  intros Hle. revert iv n os.
  induction fuel as [|fuel IH]; intros iv n os Hr Hnot.
  - rewrite retry_no_fuel in Hr. discriminate.
  - rewrite retry_unfold in *.
    destruct (Z.geb_spec (Since start os) t1) as [Hge|Hlt]; [congruence|].
    destruct (Z.geb_spec (Since start os) t2); [lia|].
    destruct (lock_outcome env (S n)) as [e|]; [|exact Hr].
    destruct (bool_decide (e = held_code impl)); [|exact Hr].
    apply IH; assumption.
Qed.

(** X9: waiting longer loses nothing.  When a LockWithTimeout call returns
    anything but Timeout or LockHeld (success in particular), the call with
    any longer timeout returns the same result and leaves the same state,
    the system answering the same. *)
Theorem longer_timeout_keeps_result impl fuel env t1 t2 st r st' :
  t1 <= t2 ->
  LockWithTimeout impl fuel env t1 st = Some (r, st') ->
  r <> Some ErrTimeout ->
  r <> Some ErrLockHeld ->
  LockWithTimeout impl fuel env t2 st = Some (r, st').
Proof.
  intros Hle Hr Htimeout Hheld. destruct st as [fl os].
  rewrite LockWithTimeout_unfold in *.
  destruct (locked fl); [exact Hr|].
  destruct (open_outcome env); [exact Hr|].
  rewrite tryLock_unfold in *.
  destruct (lock_outcome env 0) as [e|]; [|exact Hr].
  destruct (bool_decide (e = held_code impl)); [|exact Hr].
  destruct (Z.leb_spec t1 0) as [Hle1|Hgt1].
  { injection Hr as <- _. congruence. }
  destruct (Z.leb_spec t2 0); [lia|].
  destruct (retry impl fuel env (next_fd os) t1 (clock (opened os))
              (Millisecond * 10) 0 (opened os)) as [[err os1]|] eqn:Hretry;
    [|discriminate].
  assert (Herr : err <> Some ErrTimeout).
  { destruct err as [err|]; [|discriminate].
    injection Hr as <- _. exact Htimeout. }
  rewrite (retry_longer_timeout impl fuel env (next_fd os) t1 t2 _ _ _ _ _ _
             Hle Hretry Herr).
  exact Hr.
Qed.

Lemma longer_timeout_keeps_result_witness :
  100 * Millisecond <= 500 * Millisecond /\
  LockWithTimeout Unix 4 (released_after Unix 3) (100 * Millisecond)
      (fresh_state Unix)
    = Some (None,
            (mkFileLock "job.lock" (Some 3%nat) true,
             mkOS {[ 3%nat ]} (Some 3%nat) 4 81250000
                  [33750000; 22500000; 15000000; 10000000])) /\
  None <> Some ErrTimeout /\
  (None : option error) <> Some ErrLockHeld /\
  LockWithTimeout Unix 4 (released_after Unix 3) (500 * Millisecond)
      (fresh_state Unix)
    = Some (None,
            (mkFileLock "job.lock" (Some 3%nat) true,
             mkOS {[ 3%nat ]} (Some 3%nat) 4 81250000
                  [33750000; 22500000; 15000000; 10000000])).
Proof.
  split; [discriminate|]. split; [vm_compute; reflexivity|].
  split; [discriminate|]. split; [discriminate|].
  apply (longer_timeout_keeps_result Unix 4 (released_after Unix 3)
           (100 * Millisecond) (500 * Millisecond) (fresh_state Unix)).
  - discriminate.
  - vm_compute. reflexivity.
  - discriminate.
  - discriminate.
Defined.

(** ** How long a call blocks *)




(** ** IsLocked and the result of a call *)

(** X11: IsLocked tells what the last Lock or LockWithTimeout call
    returned: after the call it is true exactly when the call returned nil
    or AlreadyLocked, and the call returned nil only on a handle that was
    not locked.  The handle is locked after the call if it was before. *)
Theorem IsLocked_after_LockWithTimeout impl env timeout st more :
  exists r st',
    LockWithTimeout impl (enough_fuel timeout + more) env timeout st
      = Some (r, st') /\
    (IsLocked impl st' = true <-> r = None \/ r = Some ErrAlreadyLocked) /\
    (r = None -> IsLocked impl st = false) /\
    (r = Some ErrAlreadyLocked <-> IsLocked impl st = true).
Proof.
  destruct (LockWithTimeout_terminates impl (enough_fuel timeout + more) env
              timeout st) as [[r [fl' os']] Hr]; [lia|].
  exists r, (fl', os'). split; [exact Hr|].
  destruct st as [fl os].
  replace (IsLocked impl (fl', os')) with (locked fl')
    by (destruct impl; reflexivity).
  replace (IsLocked impl (fl, os)) with (locked fl)
    by (destruct impl; reflexivity).
  apply LockWithTimeout_result in Hr
    as [(Hl & -> & -> & _)|[(Hl & -> & _ & c & _ & ->)|[Hok|Hfail]]].
  - rewrite Hl. repeat split; auto; discriminate.
  - simpl. rewrite Hl. repeat split; try discriminate.
    intros [?|?]; discriminate.
  - destruct Hok as (Hl & _ & -> & -> & _). simpl. rewrite Hl.
    repeat split; auto; discriminate.
  - destruct Hfail as (Hl & _ & -> & _ & _ & Hkind). simpl. rewrite Hl.
    repeat split; try discriminate;
      destruct Hkind as [[-> _]|[[-> _]|(c & k & -> & _)]];
      try discriminate; intros [?|?]; discriminate.
Qed.

(** ** The path of a handle *)

Lemma LockWithTimeout_path impl fuel env timeout st r st' :
  LockWithTimeout impl fuel env timeout st = Some (r, st') ->
  path (fst st') = path (fst st).
Proof.
  destruct st as [fl os], st' as [fl' os']. intros Hr.
  apply LockWithTimeout_result in Hr
    as [(_ & _ & -> & _)|[(_ & -> & _)|[(_ & _ & _ & -> & _)|(_ & _ & -> & _)]]];
    reflexivity.
Qed.

Lemma do_call_path impl fuel c env st r st' :
  do_call impl fuel c env st = Some (r, st') ->
  path (fst st') = path (fst st).
Proof.
  destruct c as [|timeout|]; simpl.
  - rewrite Lock_unfold. apply LockWithTimeout_path.
  - apply LockWithTimeout_path.
  - destruct st as [fl os]. rewrite Unlock_unfold. intros Hr.
    destruct (locked fl), (file fl); try destruct (unlock_outcome env);
      injection Hr as _ <-; reflexivity.
Qed.

Lemma run_path impl fuel calls st sts :
  run impl fuel calls st = Some sts ->
  Forall (fun st' => path (fst st') = path (fst st)) sts.
Proof.
  revert st sts. induction calls as [|[c env] calls IH]; intros st sts Hrun.
  - injection Hrun as <-. constructor.
  - simpl in Hrun.
    destruct (do_call impl fuel c env st) as [[r st1]|] eqn:Hc; [|discriminate].
    destruct (run impl fuel calls st1) as [sts1|] eqn:Hrest; [|discriminate].
    injection Hrun as <-.
    apply do_call_path in Hc. constructor; [exact Hc|].
    apply IH in Hrest. rewrite <- Hc.
    exact Hrest.
Qed.

(** X12: the path of a handle is the one it was made with.  A handle made
    by [fs.New] is unlocked, has no descriptor and answers Path with the
    path given; it is the Windows implementation exactly when GOOS is
    "windows"; and after every call of every run on it Path is still the
    path given. *)
Theorem Path_never_changes GOOS name t n calls more :
  (fst (fs.New GOOS name) = Windows <-> GOOS = "windows") /\
  snd (fs.New GOOS name) = mkFileLock name None false /\
  exists sts,
    run (fst (fs.New GOOS name)) (run_fuel calls + more) calls
        (snd (fs.New GOOS name), boot t n) = Some sts /\
    Forall (fun st => Path (fst (fs.New GOOS name)) st = name) sts.
Proof.
  split.
  { unfold fs.New. destruct (String.eqb_spec GOOS "windows"); simpl;
      split; congruence. }
  split.
  { unfold fs.New. destruct (String.eqb GOOS "windows"); reflexivity. }
  destruct (run_invariant (fst (fs.New GOOS name)) (run_fuel calls + more)
              calls (snd (fs.New GOOS name), boot t n))
    as (sts & Hrun & _ & _).
  { unfold fs.New. destruct (String.eqb GOOS "windows").
    - exact (invariant_boot Windows name t n).
    - exact (invariant_boot Unix name t n). }
  { lia. }
  exists sts. split; [exact Hrun|].
  apply run_path in Hrun.
  eapply Forall_impl; [exact Hrun|].
  intros st Hst. simpl in Hst.
  replace (Path (fst (fs.New GOOS name)) st) with (path (fst st))
    by (destruct (fst (fs.New GOOS name)); reflexivity).
  rewrite Hst. unfold fs.New.
  destruct (String.eqb GOOS "windows"); reflexivity.
Qed.

(** ** Several handles: mutual exclusion *)

(** The loop reports success only for an attempt that the system granted. *)
Lemma retry_success_granted impl fuel env h timeout start iv n os os' :
  retry impl fuel env h timeout start iv n os = Some (None, os') ->
  exists k, lock_outcome env k = None.
Proof.
  revert iv n os.
  induction fuel as [|fuel IH]; intros iv n os Hr.
  - rewrite retry_no_fuel in Hr. discriminate.
  - rewrite retry_unfold in Hr.
    destruct (Since start os >=? timeout); [discriminate|].
    destruct (lock_outcome env (S n)) as [e|] eqn:He; [|eauto].
    destruct (bool_decide (e = held_code impl)); [|discriminate].
    eapply IH. exact Hr.
Qed.

Lemma tryLock_success_granted impl fuel env h timeout os os' :
  tryLock impl fuel env h timeout os = Some (None, os') ->
  exists k, lock_outcome env k = None.
Proof.
  rewrite tryLock_unfold. intros Hr.
  destruct (lock_outcome env 0) as [e|] eqn:He; [|eauto].
  destruct (bool_decide (e = held_code impl)); [|discriminate].
  destruct (timeout <=? 0); [discriminate|].
  eapply retry_success_granted. exact Hr.
Qed.

(** What one call does to its handle and to the lock, in a system that is
    exclusive during the call: the descriptor that holds the lock stays one
    that was handed out, a locked handle has that descriptor, and either the
    lock and the flag are as before, or the handle took a lock that was
    free, or it gave its lock up. *)
Lemma do_call_effect impl fuel c env fl os r fl' os' :
  do_call impl fuel c env (fl, os) = Some (r, (fl', os')) ->
  (c <> CallUnlock -> exclusive os env) ->
  (forall f, lock_owner os = Some f -> (f < next_fd os)%nat) ->
  (locked fl = true -> exists f, file fl = Some f /\ lock_owner os = Some f) ->
  (forall f, lock_owner os' = Some f -> (f < next_fd os')%nat) /\
  (locked fl' = true ->
     exists f, file fl' = Some f /\ lock_owner os' = Some f) /\
  ((lock_owner os' = lock_owner os /\ locked fl' = locked fl) \/
   (locked fl = false /\ locked fl' = true /\ lock_owner os = None) \/
   (locked fl = true /\ locked fl' = false /\ lock_owner os' = None)).
Proof.
  intros Hcall Hex Hfresh Hmine.
  assert (Hlock : forall timeout,
            exclusive os env ->
            LockWithTimeout impl fuel env timeout (fl, os)
              = Some (r, (fl', os')) ->
            (forall f, lock_owner os' = Some f -> (f < next_fd os')%nat) /\
            (locked fl' = true ->
               exists f, file fl' = Some f /\ lock_owner os' = Some f) /\
            ((lock_owner os' = lock_owner os /\ locked fl' = locked fl) \/
             (locked fl = false /\ locked fl' = true /\ lock_owner os = None) \/
             (locked fl = true /\ locked fl' = false /\ lock_owner os' = None))).
  { intros timeout Hexcl Hr. rewrite LockWithTimeout_unfold in Hr.
    destruct (locked fl) eqn:Hl.
    { injection Hr as _ <- <-. rewrite Hl. auto. }
    destruct (open_outcome env).
    { injection Hr as _ <- <-. simpl. rewrite Hl.
      split; [exact Hfresh|]. split; [discriminate|]. left. auto. }
    destruct (tryLock impl fuel env (next_fd os) timeout (opened os))
      as [[err os1]|] eqn:Ht; [|discriminate].
    pose proof Ht as Hres.
    apply tryLock_result in Hres as (_ & Hnext & Hkind). simpl in Hnext.
    destruct err as [err|].
    - injection Hr as _ <- <-. simpl. rewrite Hl.
      assert (Hown : lock_owner os1 = lock_owner os).
      { destruct Hkind as [[Hno _]|[(_ & _ & ->)|[(_ & _ & Ho & _)|Hos]]].
        - discriminate.
        - reflexivity.
        - exact Ho.
        - destruct Hos as (c0 & k & _ & _ & _ & Ho). exact Ho. }
      assert (Hkept : drop_owner (next_fd os) (lock_owner os1) = lock_owner os).
      { rewrite Hown. unfold drop_owner. case_decide as Hd; [|reflexivity].
        apply Hfresh in Hd. lia. }
      rewrite Hkept, Hnext.
      split; [intros f Hf; apply Hfresh in Hf; lia|].
      split; [discriminate|]. left. auto.
    - injection Hr as _ <- <-. simpl.
      destruct Hkind as [[_ Hown]|[(Hno & _)|[(Hno & _)|(c0 & k & Hno & _)]]];
        try discriminate.
      rewrite Hown, Hnext.
      split; [intros f Hf; injection Hf as <-; lia|].
      split; [intros _; eauto|].
      right. left. split; [reflexivity|]. split; [reflexivity|].
      apply tryLock_success_granted in Ht as [k Hk].
      destruct (lock_owner os) as [f0|] eqn:Ho; [|reflexivity].
      assert (Hne : lock_owner os <> None) by (rewrite Ho; discriminate).
      exfalso. apply (Hexcl Hne k). exact Hk. }
  destruct c as [|timeout|]; simpl in Hcall.
  - rewrite Lock_unfold in Hcall.
    apply (Hlock 0); [apply Hex; discriminate|exact Hcall].
  - apply (Hlock timeout); [apply Hex; discriminate|exact Hcall].
  - rewrite Unlock_unfold in Hcall.
    destruct (locked fl) eqn:Hl; cycle 1.
    { injection Hcall as _ <- <-. rewrite Hl.
      split; [exact Hfresh|]. split; [discriminate|]. left. auto. }
    destruct (Hmine eq_refl) as (f & Hf & Hown). rewrite Hf in Hcall.
    destruct (unlock_outcome env).
    + injection Hcall as _ <- <-. rewrite Hl.
      split; [exact Hfresh|]. split; [eauto|]. left. auto.
    + injection Hcall as _ <- <-. simpl.
      rewrite Hown, drop_owner_same, drop_owner_none.
      split; [discriminate|]. split; [discriminate|]. right. right. auto.
Qed.

(** A call on one handle of a family keeps the agreement between the
    handles and the system. *)
Lemma call_on_agreement impl fuel i c env st r st' :
  agreement st ->
  (c <> CallUnlock -> exclusive (snd st) env) ->
  call_on impl fuel i c env st = Some (r, st') ->
  agreement st'.
Proof.
  destruct st as [hs os]. intros (Hmine & Hone & Hfresh) Hex Hcall.
  unfold call_on in Hcall. simpl in *.
  destruct (do_call impl fuel c env (hs i, os)) as [[r1 [fl' os']]|] eqn:Hc;
    [|discriminate].
  injection Hcall as _ <-.
  apply do_call_effect in Hc as (Hfresh' & Hmine' & Hchange);
    [|exact Hex|exact Hfresh|exact (Hmine i)].
  assert (Hother : forall j, j <> i -> (<[i:=fl']> hs) j = hs j).
  { intros j Hj. apply fn_lookup_insert_ne. congruence. }
  assert (Hself : (<[i:=fl']> hs) i = fl') by apply fn_lookup_insert.
  unfold agreement, at_most_one_locked. simpl.
  destruct Hchange as [[Hown Hflag]|[(Hwas & Hnow & Hfree)|(Hwas & Hnow & Hfree)]].
  - split; [|split; [|exact Hfresh']].
    + intros j Hj. destruct (decide (j = i)) as [->|Hne].
      * rewrite Hself in *. apply Hmine'. exact Hj.
      * rewrite Hother in * by exact Hne. rewrite Hown. apply Hmine. exact Hj.
    + assert (Hsame : forall j, locked ((<[i:=fl']> hs) j) = locked (hs j)).
      { intros j. destruct (decide (j = i)) as [->|Hne].
        - rewrite Hself. exact Hflag.
        - rewrite Hother by exact Hne. reflexivity. }
      intros j k. rewrite !Hsame. apply Hone.
  - assert (Hnone : forall j, locked (hs j) = false).
    { intros j. destruct (locked (hs j)) eqn:Hj; [|reflexivity].
      destruct (Hmine j Hj) as (f & _ & Hf). congruence. }
    split; [|split; [|exact Hfresh']].
    + intros j Hj. destruct (decide (j = i)) as [->|Hne].
      * rewrite Hself in *. apply Hmine'. exact Hj.
      * rewrite Hother in Hj by exact Hne. rewrite Hnone in Hj. discriminate.
    + intros j k Hj Hk.
      destruct (decide (j = i)) as [->|Hnj];
        [|rewrite Hother, Hnone in Hj by exact Hnj; discriminate].
      destruct (decide (k = i)) as [->|Hnk];
        [reflexivity|rewrite Hother, Hnone in Hk by exact Hnk; discriminate].
  - assert (Hnone : forall j, locked ((<[i:=fl']> hs) j) = false).
    { intros j. destruct (decide (j = i)) as [->|Hne].
      - rewrite Hself. exact Hnow.
      - rewrite Hother by exact Hne.
        destruct (locked (hs j)) eqn:Hj; [|reflexivity].
        exfalso. apply Hne. apply Hone; assumption. }
    split; [|split; [|exact Hfresh']].
    + intros j Hj. rewrite Hnone in Hj. discriminate.
    + intros j k Hj. rewrite Hnone in Hj. discriminate.
Qed.

Lemma run_on_agreement impl fuel calls st :
  agreement st ->
  exclusive_run impl fuel calls st ->
  (run_on_fuel calls <= fuel)%nat ->
  exists sts, run_on impl fuel calls st = Some sts /\
    length sts = length calls /\ Forall agreement sts.
Proof.
  revert st. induction calls as [|[[i c] env] calls IH]; intros st Hag Hex Hfuel.
  - exists []. repeat split. constructor.
  - assert (Hc : (run_fuel [(c, env)] <= fuel)%nat).
    { destruct c; simpl in *; lia. }
    assert (Hrest : (run_on_fuel calls <= fuel)%nat).
    { destruct c; simpl in *; lia. }
    destruct Hex as [Hex Hnext].
    destruct (do_call_returns impl fuel c env (fst st i, snd st) Hc)
      as [[r [fl' os']] Hr].
    assert (Hcall : call_on impl fuel i c env st
                    = Some (r, (<[i:=fl']> (fst st), os'))).
    { unfold call_on. rewrite Hr. reflexivity. }
    rewrite Hcall in Hnext.
    pose proof (call_on_agreement impl fuel i c env st r _ Hag Hex Hcall)
      as Hag'.
    destruct (IH _ Hag' Hnext Hrest) as (sts & Hrun & Hlen & Hall).
    exists ((<[i:=fl']> (fst st), os') :: sts). simpl. rewrite Hcall, Hrun.
    split; [reflexivity|]. split; [simpl; congruence|].
    constructor; assumption.
Qed.

(** X13: two handles never hold the lock together.  For any number of
    handles on the file and any run of Lock, LockWithTimeout and Unlock
    calls on them, if the system grants no attempt while a descriptor holds
    the lock, then every call returns and after each call at most one handle
    is locked, and a locked handle has the descriptor that holds the lock. *)
Theorem handles_exclude_each_other impl names t n calls more :
  exclusive_run impl (run_on_fuel calls + more) calls
    (fun i => New impl (names i), boot t n) ->
  exists sts,
    run_on impl (run_on_fuel calls + more) calls
      (fun i => New impl (names i), boot t n) = Some sts /\
    length sts = length calls /\
    Forall at_most_one_locked sts /\
    Forall (fun st => forall i, locked (fst st i) = true ->
              exists f, file (fst st i) = Some f
                        /\ lock_owner (snd st) = Some f) sts.
Proof.
  intros Hex.
  destruct (run_on_agreement impl (run_on_fuel calls + more) calls
              (fun i => New impl (names i), boot t n))
    as (sts & Hrun & Hlen & Hall).
  - split; [|split].
    + intros i Hi. destruct impl; discriminate.
    + intros i j Hi. destruct impl; discriminate.
    + intros f Hf. discriminate.
  - exact Hex.
  - lia.
  - exists sts. split; [exact Hrun|]. split; [exact Hlen|].
    split; (eapply Forall_impl; [exact Hall|]); intros st (Hmine & Hone & _);
      assumption.
Qed.

Lemma handles_exclude_each_other_witness :
  exclusive_run Unix (run_on_fuel (two_handles Unix) + 0) (two_handles Unix)
    (fun i => New Unix ((fun _ => "job.lock") i), boot 0 3) /\
  exists sts,
    run_on Unix (run_on_fuel (two_handles Unix) + 0) (two_handles Unix)
      (fun i => New Unix ((fun _ => "job.lock") i), boot 0 3) = Some sts /\
    length sts = length (two_handles Unix) /\
    Forall at_most_one_locked sts /\
    Forall (fun st => forall i, locked (fst st i) = true ->
              exists f, file (fst st i) = Some f
                        /\ lock_owner (snd st) = Some f) sts.
Proof.
  assert (Hex : exclusive_run Unix (run_on_fuel (two_handles Unix) + 0)
                  (two_handles Unix)
                  (fun i => New Unix ((fun _ => "job.lock") i), boot 0 3)).
  { vm_compute. repeat split; intros; try discriminate; try congruence. }
  split; [exact Hex|].
  apply (handles_exclude_each_other Unix (fun _ => "job.lock") 0 3
           (two_handles Unix) 0).
  exact Hex.
Defined.

(** ** Two handles: the lock passes from one to the other *)

(** Lock when no descriptor holds the lock and the system says so. *)
Lemma Lock_when_free impl fuel fl os :
  locked fl = false ->
  lock_owner os = None ->
  Lock impl fuel (answers impl os) (fl, os)
    = Some (None,
            (mkFileLock (path fl) (Some (next_fd os)) true,
             granted (next_fd os) (opened os))).
Proof.
  intros Hl Hfree.
  rewrite Lock_unfold, LockWithTimeout_unfold, Hl, tryLock_unfold.
  simpl. rewrite Hfree. reflexivity.
Qed.

(** Lock when another descriptor holds the lock and the system says so. *)
Lemma Lock_when_held impl fuel fl os f :
  locked fl = false ->
  lock_owner os = Some f ->
  f <> next_fd os ->
  Lock impl fuel (answers impl os) (fl, os)
    = Some (Some ErrLockHeld,
            (set_file None fl,
             mkOS (({[ next_fd os ]} ∪ open_files os) ∖ {[ next_fd os ]})
                  (Some f) (S (next_fd os)) (clock os) (sleeps os))).
Proof.
  intros Hl Hheld Hne.
  rewrite Lock_unfold, LockWithTimeout_unfold, Hl, tryLock_unfold.
  simpl. rewrite Hheld.
  rewrite bool_decide_eq_true_2 by reflexivity. simpl.
  unfold closed, drop_owner. simpl. rewrite Hheld.
  rewrite decide_False by congruence. reflexivity.
Qed.

(** X14: the lock passes from one handle to another.  With two unlocked
    handles, no descriptor holding the lock, and a system that grants the
    lock when it is free and refuses it when it is held: Lock on the first
    succeeds; Lock on the second then returns LockHeld (not AlreadyLocked)
    and leaves the first handle locked; Unlock on the first succeeds; and
    Lock on the second then succeeds. *)
Theorem lock_passes_between_handles impl fuel hs os a b :
  a <> b ->
  locked (hs a) = false ->
  locked (hs b) = false ->
  lock_owner os = None ->
  exists st1 st2 st3 st4,
    call_on impl fuel a CallLock (answers impl os) (hs, os)
      = Some (None, st1) /\
    call_on impl fuel b CallLock (answers impl (snd st1)) st1
      = Some (Some ErrLockHeld, st2) /\
    call_on impl fuel a CallUnlock (answers impl (snd st2)) st2
      = Some (None, st3) /\
    call_on impl fuel b CallLock (answers impl (snd st3)) st3
      = Some (None, st4) /\
    locked (fst st2 a) = true /\ locked (fst st2 b) = false /\
    lock_owner (snd st2) = file (fst st2 a) /\
    locked (fst st4 a) = false /\ locked (fst st4 b) = true /\
    lock_owner (snd st4) = file (fst st4 b).
Proof.
  intros Hab Ha Hb Hfree.
  assert (Hba : b <> a) by congruence.
  eexists _, _, _, _.
  split.
  { unfold call_on. simpl.
    rewrite (Lock_when_free impl fuel (hs a) os Ha Hfree). reflexivity. }
  split.
  { unfold call_on. simpl.
    rewrite fn_lookup_insert_ne by exact Hab.
    erewrite Lock_when_held;
      [reflexivity|exact Hb|reflexivity|simpl; lia]. }
  split.
  { unfold call_on. simpl.
    rewrite fn_lookup_insert_ne by exact Hba.
    rewrite fn_lookup_insert.
    rewrite Unlock_unfold. simpl. reflexivity. }
  split.
  { unfold call_on. simpl.
    rewrite fn_lookup_insert_ne by exact Hab.
    rewrite fn_lookup_insert.
    rewrite Lock_when_free; [reflexivity| |].
    - simpl. exact Hb.
    - simpl. rewrite !drop_owner_same. reflexivity. }
  simpl.
  rewrite !(fn_lookup_insert_ne _ b a) by exact Hba. rewrite !fn_lookup_insert.
  repeat split.
  simpl. exact Hb.
Qed.

Lemma lock_passes_between_handles_witness :
  0%nat <> 1%nat /\
  locked ((fun _ => New Windows "job.lock") 0%nat) = false /\
  locked ((fun _ => New Windows "job.lock") 1%nat) = false /\
  lock_owner (boot 0 3) = None /\
  exists st1 st2 st3 st4,
    call_on Windows 0 0 CallLock (answers Windows (boot 0 3))
        (fun _ => New Windows "job.lock", boot 0 3)
      = Some (None, st1) /\
    call_on Windows 0 1 CallLock (answers Windows (snd st1)) st1
      = Some (Some ErrLockHeld, st2) /\
    call_on Windows 0 0 CallUnlock (answers Windows (snd st2)) st2
      = Some (None, st3) /\
    call_on Windows 0 1 CallLock (answers Windows (snd st3)) st3
      = Some (None, st4) /\
    locked (fst st2 0%nat) = true /\ locked (fst st2 1%nat) = false /\
    lock_owner (snd st2) = file (fst st2 0%nat) /\
    locked (fst st4 0%nat) = false /\ locked (fst st4 1%nat) = true /\
    lock_owner (snd st4) = file (fst st4 1%nat).
Proof.
  split; [discriminate|]. split; [reflexivity|]. split; [reflexivity|].
  split; [reflexivity|].
  apply (lock_passes_between_handles Windows 0
           (fun _ => New Windows "job.lock") (boot 0 3) 0 1).
  - discriminate.
  - reflexivity.
  - reflexivity.
  - reflexivity.
Defined.

(** ** The example program *)

(** X15: what the example prints.  [main] prints the new handle, the
    results of its two Lock calls and IsLocked, and always ends.  When the
    first Lock prints nil the second prints AlreadyLocked (it is the same
    handle; LockHeld is printed only by a Lock that found the lock held by
    another holder) and IsLocked prints true.  IsLocked prints true exactly
    when one of the two calls printed nil, and when the release at the end
    is done the handle is left unlocked. *)
Theorem main_prints GOOS lockPath env1 env2 env3 os :
  exists e1 e2 b st,
    main GOOS lockPath env1 env2 env3 os
      = Some ([PrintHandle (mkFileLock lockPath None false);
               PrintError e1; PrintError e2; PrintBool b], st) /\
    (e1 = None -> e2 = Some ErrAlreadyLocked /\ b = true) /\
    (e2 = Some ErrLockHeld ->
       e1 <> None /\ lock_outcome env2 0 = Some (held_code (fst (fs.New GOOS lockPath)))) /\
    (b = true <-> e1 = None \/ e2 = None) /\
    (unlock_outcome env3 = None -> locked (fst st) = false).
Proof.
  assert (Hmain : forall impl,
    exists e1 e2 b st,
      match Lock impl 0 env1 (mkFileLock lockPath None false, os) with
      | None => None
      | Some (err, st) =>
          let out := [PrintHandle (mkFileLock lockPath None false)]
                     ++ [PrintError err] in
          match Lock impl 0 env2 st with
          | None => None
          | Some (err, st) =>
              let out := out ++ [PrintError err] in
              let out := out ++ [PrintBool (IsLocked impl st)] in
              let '(_, st) := Unlock impl env3 st in
              Some (out, st)
          end
      end
        = Some ([PrintHandle (mkFileLock lockPath None false);
                 PrintError e1; PrintError e2; PrintBool b], st) /\
      (e1 = None -> e2 = Some ErrAlreadyLocked /\ b = true) /\
      (e2 = Some ErrLockHeld ->
         e1 <> None /\ lock_outcome env2 0 = Some (held_code impl)) /\
      (b = true <-> e1 = None \/ e2 = None) /\
      (unlock_outcome env3 = None -> locked (fst st) = false)).
  { intros impl.
    rewrite Lock_unfold, (LockWithTimeout_nonpositive impl 0 env1 0) by lia.
    destruct (single_attempt impl env1 (mkFileLock lockPath None false, os))
      as [e1 [fl1 os1]] eqn:H1.
    rewrite Lock_unfold, (LockWithTimeout_nonpositive impl 0 env2 0) by lia.
    destruct (single_attempt impl env2 (fl1, os1)) as [e2 [fl2 os2]] eqn:H2.
    replace (IsLocked impl (fl2, os2)) with (locked fl2)
      by (destruct impl; reflexivity).
    destruct (Unlock impl env3 (fl2, os2)) as [r3 [fl3 os3]] eqn:H3.
    exists e1, e2, (locked fl2), (fl3, os3). split; [reflexivity|].
    assert (Hfirst : (e1 = None /\ locked fl1 = true) \/
                     (e1 <> None /\ locked fl1 = false)).
    { unfold single_attempt in H1. simpl in H1.
      destruct (open_outcome env1).
      { injection H1 as <- <- _. right. split; [discriminate|reflexivity]. }
      destruct (lock_outcome env1 0).
      - injection H1 as <- <- _. right. split; [discriminate|reflexivity].
      - injection H1 as <- <- _. left. split; reflexivity. }
    assert (Hsecond :
              (locked fl1 = true /\ e2 = Some ErrAlreadyLocked
                 /\ locked fl2 = true) \/
              (locked fl1 = false /\ e2 = None /\ locked fl2 = true) \/
              (locked fl1 = false /\ e2 <> None /\ locked fl2 = false /\
                 e2 <> Some ErrAlreadyLocked /\
                 (e2 = Some ErrLockHeld ->
                    lock_outcome env2 0 = Some (held_code impl)))).
    { unfold single_attempt in H2.
      destruct (locked fl1) eqn:Hl1.
      { injection H2 as <- <- _. left. auto. }
      right. destruct (open_outcome env2).
      { injection H2 as <- <- _. right. repeat split; discriminate. }
      destruct (lock_outcome env2 0) as [o2|].
      - injection H2 as <- <- _. right.
        destruct (bool_decide (o2 = held_code impl)) eqn:Hd.
        + apply bool_decide_eq_true_1 in Hd. subst o2.
          repeat split; discriminate.
        + repeat split; discriminate.
      - injection H2 as <- <- _. left. auto. }
    assert (Hfile1 : locked fl1 = true -> exists f, file fl1 = Some f).
    { unfold single_attempt in H1. simpl in H1.
      destruct (open_outcome env1).
      { injection H1 as _ <- _. discriminate. }
      destruct (lock_outcome env1 0).
      - injection H1 as _ <- _. discriminate.
      - injection H1 as _ <- _. eauto. }
    assert (Hfile2 : locked fl2 = true -> exists f, file fl2 = Some f).
    { unfold single_attempt in H2.
      destruct (locked fl1).
      { injection H2 as _ <- _. intros _. apply Hfile1. reflexivity. }
      destruct (open_outcome env2).
      { injection H2 as _ <- _. discriminate. }
      destruct (lock_outcome env2 0).
      - injection H2 as _ <- _. discriminate.
      - injection H2 as _ <- _. eauto. }
    assert (Hthird : unlock_outcome env3 = None -> locked fl3 = false).
    { intros Hu. rewrite Unlock_unfold, Hu in H3.
      destruct (locked fl2) eqn:Hl2.
      - destruct (Hfile2 eq_refl) as [f Hf]. rewrite Hf in H3.
        injection H3 as _ <- _. reflexivity.
      - injection H3 as _ <- _. exact Hl2. }
    split; [|split; [|split; [|exact Hthird]]].
    - intros ->. destruct Hfirst as [[_ Hl]|[Hne _]]; [|congruence].
      destruct Hsecond as [(_ & He & Hl2)|[(Hl' & _)|(Hl' & _)]];
        [auto|congruence|congruence].
    - intros ->.
      destruct Hsecond as [(_ & He & _)|[(_ & He & _)|(Hl' & _ & _ & _ & Hh)]];
        [discriminate|discriminate|].
      split; [|apply Hh; reflexivity].
      destruct Hfirst as [[_ Hl]|[Hne _]]; [congruence|exact Hne].
    - split.
      + intros Hb.
        destruct Hsecond as [(Hl & _)|[(_ & He & _)|(_ & _ & Hl2 & _)]];
          [|right; exact He|congruence].
        left. destruct Hfirst as [[He _]|[_ Hl']]; [exact He|congruence].
      + intros [He|He].
        * destruct Hfirst as [[_ Hl]|[Hne _]]; [|congruence].
          destruct Hsecond as [(_ & _ & Hl2)|[(Hl' & _)|(Hl' & _)]];
            [exact Hl2|congruence|congruence].
        * destruct Hsecond as [(_ & He2 & _)|[(_ & _ & Hl2)|(_ & Hne & _)]];
            [congruence|exact Hl2|congruence]. }
  unfold main, fs.New.
  destruct (String.eqb GOOS "windows"); simpl fst.
  - exact (Hmain Windows).
  - exact (Hmain Unix).
Qed.

(** ** The flag and the results a client has seen *)

Lemma do_call_holds_after impl fuel c env st r st' :
  invariant st ->
  unlock_outcome env = None ->
  do_call impl fuel c env st = Some (r, st') ->
  locked (fst st') = holds_after (locked (fst st)) (c, r).
Proof.
  destruct st as [fl os], st' as [fl' os']. intros [Hon Hoff] Hrel Hcall.
  assert (Hlock : forall timeout,
            LockWithTimeout impl fuel env timeout (fl, os)
              = Some (r, (fl', os')) ->
            locked fl' = match r with None => true | Some _ => locked fl end).
  { intros timeout Hr.
    apply LockWithTimeout_result in Hr
      as [(Hl & -> & -> & _)|[(Hl & -> & _ & c0 & _ & ->)|[Hok|Hfail]]].
    - reflexivity.
    - reflexivity.
    - destruct Hok as (_ & _ & -> & -> & _). reflexivity.
    - destruct Hfail as (_ & _ & -> & _ & _ & Hkind).
      destruct Hkind as [[-> _]|[[-> _]|(c0 & k & -> & _)]]; reflexivity. }
  destruct c as [|timeout|]; simpl in *.
  - rewrite Lock_unfold in Hcall. destruct r; apply (Hlock 0); exact Hcall.
  - destruct r; apply (Hlock timeout); exact Hcall.
  - rewrite Unlock_unfold, Hrel in Hcall.
    destruct (locked fl) eqn:Hl.
    + destruct (Hon eq_refl) as (f & Hf & _). rewrite Hf in Hcall.
      injection Hcall as _ <- _. reflexivity.
    + injection Hcall as _ <- _. exact Hl.
Qed.

Lemma run_results_holds impl fuel calls st :
  invariant st ->
  Forall (fun ce => unlock_outcome (snd ce) = None) calls ->
  (run_fuel calls <= fuel)%nat ->
  exists rs st',
    run_results impl fuel calls st = Some (rs, st') /\
    map fst rs = map fst calls /\
    locked (fst st') = fold_left holds_after rs (locked (fst st)).
Proof.
  revert st. induction calls as [|[c env] calls IH]; intros st Hinv Hrel Hfuel.
  - exists [], st. repeat split.
  - assert (Hc : (run_fuel [(c, env)] <= fuel)%nat).
    { destruct c; simpl in *; lia. }
    assert (Hrest : (run_fuel calls <= fuel)%nat).
    { destruct c; simpl in *; lia. }
    apply Forall_cons in Hrel as [Hrel1 Hrel]. simpl in Hrel1.
    destruct (do_call_returns impl fuel c env st Hc) as [[r st1] Hr].
    pose proof (do_call_invariant impl fuel c env st r st1 Hinv Hr) as Hinv1.
    pose proof (do_call_holds_after impl fuel c env st r st1 Hinv Hrel1 Hr)
      as Hflag.
    destruct (IH st1 Hinv1 Hrel Hrest) as (rs & st' & Hrun & Hmap & Hlast).
    exists ((c, r) :: rs), st'. simpl. rewrite Hr, Hrun.
    split; [reflexivity|]. split; [simpl; congruence|].
    rewrite Hlast, Hflag. reflexivity.
Qed.

(** X16: a client can tell from the results alone whether the handle is
    locked.  In any run of Lock, LockWithTimeout and Unlock calls on a
    handle from its creation in which the system refuses no release, every
    call returns and IsLocked at the end is what the results say: true when
    the last Lock or LockWithTimeout that returned nil was followed by no
    Unlock, false otherwise.  So when every caller that obtained the lock
    calls Unlock afterwards, the handle ends unlocked. *)
Theorem IsLocked_follows_results impl name t n calls more :
  Forall (fun ce => unlock_outcome (snd ce) = None) calls ->
  exists rs st,
    run_results impl (run_fuel calls + more) calls (New impl name, boot t n)
      = Some (rs, st) /\
    map fst rs = map fst calls /\
    IsLocked impl st = fold_left holds_after rs false.
Proof.
  intros Hrel.
  destruct (run_results_holds impl (run_fuel calls + more) calls
              (New impl name, boot t n))
    as (rs & st & Hrun & Hmap & Hlast).
  - apply invariant_boot.
  - exact Hrel.
  - lia.
  - exists rs, st. split; [exact Hrun|]. split; [exact Hmap|].
    replace (IsLocked impl st) with (locked (fst st))
      by (destruct impl; reflexivity).
    rewrite Hlast. destruct impl; reflexivity.
Qed.

Lemma IsLocked_follows_results_witness :
  Forall (fun ce => unlock_outcome (snd ce) = None)
    [(CallLock, quiet); (CallLock, quiet); (CallUnlock, quiet);
     (CallLockWithTimeout (20 * Millisecond), contended Unix)] /\
  exists rs st,
    run_results Unix
        (run_fuel [(CallLock, quiet); (CallLock, quiet); (CallUnlock, quiet);
                   (CallLockWithTimeout (20 * Millisecond), contended Unix)]
         + 0)
        [(CallLock, quiet); (CallLock, quiet); (CallUnlock, quiet);
         (CallLockWithTimeout (20 * Millisecond), contended Unix)]
        (New Unix "job.lock", boot 0 3)
      = Some (rs, st) /\
    map fst rs
      = map fst [(CallLock, quiet); (CallLock, quiet); (CallUnlock, quiet);
                 (CallLockWithTimeout (20 * Millisecond), contended Unix)] /\
    IsLocked Unix st = fold_left holds_after rs false.
Proof.
  assert (Hrel : Forall (fun ce => unlock_outcome (snd ce) = None)
            [(CallLock, quiet); (CallLock, quiet); (CallUnlock, quiet);
             (CallLockWithTimeout (20 * Millisecond), contended Unix)]).
  { repeat constructor. }
  split; [exact Hrel|].
  apply (IsLocked_follows_results Unix "job.lock" 0 3
           [(CallLock, quiet); (CallLock, quiet); (CallUnlock, quiet);
            (CallLockWithTimeout (20 * Millisecond), contended Unix)] 0).
  exact Hrel.
Defined.
